(** * parser-json: document parsing, key/value extraction and retrieval

    A shallow embedding of [src/main.py]:
    - [DocumentParser.parse_document] (extension dispatch around the two
      external decoders),
    - [InformationExtractor.extract_information] (the two-pass extraction)
      and [InformationExtractor.save_to_json],
    - [RAGModel.add_documents] and [RAGModel.query],
    - [main]: its list comprehensions, and its [try] with the [except]
      branch.

    Python values are modelled as follows.
    - [str] is a sequence of Unicode code points, [list N].
    - [dict] is an association list without repeated keys kept in insertion
      order, which is the iteration order of a Python dict; assignment to an
      existing key keeps its position.
    - The sentence-embedding model and [cosine_similarity] are external; the
      retrieval code is stated over an arbitrary encoder and score.
    - The decoders behind [parse_document] are external; they are arguments,
      [None] standing for an exception caught by the [try].
    - [json.dump] and the reading back of its output follow the [json]
      module of the standard library. *)

From Stdlib Require Import String Ascii.
From Stdlib Require Import List NArith ZArith Arith Lia Bool.
From Stdlib Require Import Permutation Sorted.
Import ListNotations.

Set Implicit Arguments.

(* ================================================================== *)
(** ** Python strings *)

Module PyStr.

Definition char := N.
Definition str := list char.

(** A literal: the code points of an ASCII string constant. *)
Definition lit (s : string) : str := map N_of_ascii (list_ascii_of_string s).

Definition nl : char := 10%N.
Definition cr : char := 13%N.
Definition colon : char := 58%N.
Definition space : char := 32%N.

Definition str_eqb (a b : str) : bool :=
  if list_eq_dec N.eq_dec a b then true else false.

(** [Py_UNICODE_ISSPACE]: the characters removed by [str.strip()] and
    matched by [\s] in a [str] pattern. *)
Definition isspace (c : char) : bool :=
  (((9 <=? c) && (c <=? 13)) || ((28 <=? c) && (c <=? 32))
  || (c =? 133) || (c =? 160) || (c =? 5760)
  || ((8192 <=? c) && (c <=? 8202))
  || (c =? 8232) || (c =? 8233) || (c =? 8239) || (c =? 8287)
  || (c =? 12288))%N.

(** [Py_UNICODE_ISLINEBREAK]: the line boundaries of [str.splitlines()]. *)
Definition islinebreak (c : char) : bool :=
  (((10 <=? c) && (c <=? 13)) || ((28 <=? c) && (c <=? 30))
  || (c =? 133) || (c =? 8232) || (c =? 8233))%N.

Fixpoint lstrip (s : str) : str :=
  match s with
  | [] => []
  | c :: s' => if isspace c then lstrip s' else s
  end.

Definition rstrip (s : str) : str := rev (lstrip (rev s)).

(** [s.strip()] *)
Definition strip (s : str) : str := rstrip (lstrip s).

(** [s.splitlines()]: [cur] holds the current line, reversed.  A line
    boundary closes the current line (also when it is empty); [\r\n] is one
    boundary; no empty line is produced after a final boundary. *)
Fixpoint splitlines_from (cur : str) (s : str) : list str :=
  match s with
  | [] => match cur with [] => [] | _ => [rev cur] end
  | c :: s' =>
      if islinebreak c then
        rev cur ::
          (if c =? cr then
             match s' with
             | c' :: s'' => if c' =? nl then splitlines_from [] s''
                            else splitlines_from [] s'
             | [] => splitlines_from [] s'
             end
           else splitlines_from [] s')
      else splitlines_from (c :: cur) s'
  end%N.

Definition splitlines (s : str) : list str := splitlines_from [] s.

(** [sep.join(parts)] *)
Fixpoint join (sep : str) (parts : list str) : str :=
  match parts with
  | [] => []
  | [p] => p
  | p :: rest => p ++ sep ++ join sep rest
  end.

End PyStr.
Import PyStr.

(* ================================================================== *)
(** ** Python dicts *)

Module PyDict.

Section Dict.
Variables K V : Type.
Variable eqb : K -> K -> bool.

Definition dict := list (K * V).

(** [d.get(k)], [None] standing for a missing key *)
Fixpoint dict_get (k : K) (d : dict) : option V :=
  match d with
  | [] => None
  | (k', v) :: d' => if eqb k k' then Some v else dict_get k d'
  end.

(** [k in d] *)
Definition dict_mem (k : K) (d : dict) : bool :=
  match dict_get k d with Some _ => true | None => false end.

(** [d[k] = v]: an existing key keeps its position, a new key is
    appended. *)
Fixpoint dict_set (k : K) (v : V) (d : dict) : dict :=
  match d with
  | [] => [(k, v)]
  | (k', v') :: d' =>
      if eqb k k' then (k', v) :: d' else (k', v') :: dict_set k v d'
  end.

Definition keys (d : dict) : list K := map fst d.
End Dict.

End PyDict.
Import PyDict.

(* ================================================================== *)
(** ** The pattern of [re.search]

    The pattern is: a first group of one or more characters, as few as
    possible; a colon; any whitespace; a second group taking the rest. *)

Module Regex.

(** [.] matches any character except a newline. *)
Definition dot (c : char) : bool := negb (c =? nl)%N.

(** The lazy first group followed by the colon, anchored at the head of [s]:
    the group takes one character, then as few more as are needed for the
    next character to be a colon.  [g1] is the group so far, reversed.
    Returns the group and the text after the colon. *)
Fixpoint lazy_key (g1 : str) (s : str) : option (str * str) :=
  match s with
  | [] => None
  | c :: s' =>
      if dot c then
        match s' with
        | c' :: s'' =>
            if (c' =? colon)%N then Some (rev (c :: g1), s'')
            else lazy_key (c :: g1) s'
        | [] => None
        end
      else None
  end.

(** The greedy run of whitespace after the colon *)
Fixpoint skip_spaces (s : str) : str :=
  match s with
  | [] => []
  | c :: s' => if isspace c then skip_spaces s' else s
  end.

(** The greedy second group: every character that [.] matches *)
Fixpoint dot_star (s : str) : str :=
  match s with
  | [] => []
  | c :: s' => if dot c then c :: dot_star s' else []
  end.

(** The pattern anchored at the head of [s]: groups 1 and 2.  After the
    colon nothing can fail, so the greedy choices stand. *)
Definition match_here (s : str) : option (str * str) :=
  match lazy_key [] s with
  | Some (g1, rest) => Some (g1, dot_star (skip_spaces rest))
  | None => None
  end.

(** [re.search]: the leftmost start position at which the pattern matches. *)
Fixpoint search (s : str) : option (str * str) :=
  match match_here s with
  | Some m => Some m
  | None => match s with
            | [] => None
            | _ :: s' => search s'
            end
  end.

End Regex.

(** A record: the [Dict[str, str]] of one document *)
Definition Record := dict str str.

(* ================================================================== *)
(** ** [json.dump(data, f, indent=4)] and [json.load]

    [save_to_json] hands the list of records to [json.dump] with
    [indent=4] and the defaults [ensure_ascii=True], [sort_keys=False].
    The encoder below is the library's for this type of data, a list of
    dicts from [str] to [str]; the decoder is the library's scanner for
    strings, arrays, objects and the three literal names.  Numbers do not
    occur in what the program writes and are left out: [Unmodelled]. *)

Module Json.

Local Open Scope N_scope.

Definition quote : char := 34.
Definition backslash : char := 92.
Definition comma : char := 44.
Definition lbrace : char := 123.
Definition rbrace : char := 125.
Definition lbracket : char := 91.
Definition rbracket : char := 93.
Definition letter_u : char := 117.

(** One digit of the lower-case hexadecimal format *)
Definition hexdigit (d : N) : char := if d <? 10 then 48 + d else 87 + d.

(** The four digits of [n], as the format with width 4 and zero fill *)
Definition hex4 (n : N) : str :=
  [hexdigit (n / 4096 mod 16); hexdigit (n / 256 mod 16);
   hexdigit (n / 16 mod 16); hexdigit (n mod 16)].

Definition u_escape (n : N) : str := backslash :: letter_u :: hex4 n.

(** The replacement of one character by [encode_basestring_ascii]: the
    short escapes of the table, the character itself from the space to the
    tilde, a four-digit escape below 0x10000 and a surrogate pair above. *)
Definition escape_char (c : char) : str :=
  if c =? quote then [backslash; quote]
  else if c =? backslash then [backslash; backslash]
  else if c =? 10 then [backslash; 110]
  else if c =? 13 then [backslash; 114]
  else if c =? 9 then [backslash; 116]
  else if c =? 8 then [backslash; 98]
  else if c =? 12 then [backslash; 102]
  else if (32 <=? c) && (c <=? 126) then [c]
  else if c <? 65536 then u_escape c
  else
    let n := c - 65536 in
    let s1 := N.lor 55296 (N.land (N.shiftr n 10) 1023) in
    let s2 := N.lor 56320 (N.land n 1023) in
    u_escape s1 ++ u_escape s2.

Definition encode_basestring_ascii (s : str) : str :=
  quote :: flat_map escape_char s ++ [quote].

(** A newline and the indentation of a nesting level *)
Definition newline_indent (level : nat) : str :=
  nl :: repeat space (4 * level).

Definition item_separator (level : nat) : str :=
  comma :: newline_indent level.

(** The loop of [_iterencode_dict] over the items, [first] being its
    flag *)
Fixpoint dict_items (level : nat) (first : bool) (dct : Record) : str :=
  match dct with
  | [] => []
  | (key, value) :: rest =>
      (if first then [] else item_separator level)
      ++ encode_basestring_ascii key ++ [colon; space]
      ++ encode_basestring_ascii value
      ++ dict_items level false rest
  end.

Definition iterencode_dict (dct : Record) (level : nat) : str :=
  match dct with
  | [] => [lbrace; rbrace]
  | _ :: _ =>
      lbrace :: newline_indent (S level)
      ++ dict_items (S level) true dct
      ++ newline_indent level ++ [rbrace]
  end.

(** The loop of [_iterencode_list] over the values *)
Fixpoint list_items (level : nat) (first : bool) (lst : list Record) : str :=
  match lst with
  | [] => []
  | value :: rest =>
      (if first then [] else item_separator level)
      ++ iterencode_dict value level
      ++ list_items level false rest
  end.

Definition iterencode_list (lst : list Record) (level : nat) : str :=
  match lst with
  | [] => [lbracket; rbracket]
  | _ :: _ =>
      lbracket :: newline_indent (S level)
      ++ list_items (S level) true lst
      ++ newline_indent level ++ [rbracket]
  end.

(** The text [json.dump(data, f, indent=4)] writes to [f] *)
Definition dump (data : list Record) : str := iterencode_list data 0.

(** *** Decoding *)

#[warnings="-register-all"]
Inductive json : Type :=
| JNull
| JBool (b : bool)
| JString (s : str)
| JArray (l : list json)
| JObject (d : dict str json).

Inductive outcome (A : Type) : Type :=
| Ok (a : A)
| JSONDecodeError
| Unmodelled
| Exhausted.
Arguments JSONDecodeError {A}.
Arguments Unmodelled {A}.
Arguments Exhausted {A}.

(** The whitespace of the scanner: space, tab, newline, return *)
Definition is_ws (c : char) : bool :=
  (c =? 32) || (c =? 9) || (c =? 10) || (c =? 13).

Fixpoint skip_ws (s : str) : str :=
  match s with
  | [] => []
  | c :: s' => if is_ws c then skip_ws s' else s
  end.

Definition hexval (c : char) : option N :=
  if (48 <=? c) && (c <=? 57) then Some (c - 48)
  else if (97 <=? c) && (c <=? 102) then Some (c - 87)
  else if (65 <=? c) && (c <=? 70) then Some (c - 55)
  else None.

(** [_decode_uXXXX]: the value of four hexadecimal digits *)
Definition decode_uXXXX (h1 h2 h3 h4 : char) : option N :=
  match hexval h1, hexval h2, hexval h3, hexval h4 with
  | Some a, Some b, Some c, Some d => Some (((a * 16 + b) * 16 + c) * 16 + d)
  | _, _, _, _ => None
  end.

(** The table [BACKSLASH] *)
Definition unescape (esc : char) : option char :=
  if esc =? quote then Some quote
  else if esc =? backslash then Some backslash
  else if esc =? 47 then Some 47
  else if esc =? 98 then Some 8
  else if esc =? 102 then Some 12
  else if esc =? 110 then Some 10
  else if esc =? 114 then Some 13
  else if esc =? 116 then Some 9
  else None.

Definition is_high (n : N) : bool := (55296 <=? n) && (n <=? 56319).
Definition is_low (n : N) : bool := (56320 <=? n) && (n <=? 57343).

(** [py_scanstring] in strict mode, from the character after the opening
    quote; [acc] is the decoded text so far, reversed.  Returns the text
    and the input after the closing quote.  A high surrogate escape
    directly followed by a low surrogate escape is one character. *)
Fixpoint scanstring (acc : str) (s : str) : outcome (str * str) :=
  match s with
  | [] => JSONDecodeError
  | c :: s1 =>
    if c =? quote then Ok (rev acc, s1)
    else if c =? backslash then
      match s1 with
      | [] => JSONDecodeError
      | esc :: s2 =>
        if esc =? letter_u then
          match s2 with
          | h1 :: h2 :: h3 :: h4 :: s6 =>
            match decode_uXXXX h1 h2 h3 h4 with
            | None => JSONDecodeError
            | Some uni =>
              if is_high uni then
                match s6 with
                | b :: s7 =>
                  if b =? backslash then
                    match s7 with
                    | u :: s8 =>
                      if u =? letter_u then
                        match s8 with
                        | k1 :: k2 :: k3 :: k4 :: s12 =>
                          match decode_uXXXX k1 k2 k3 k4 with
                          | None => JSONDecodeError
                          | Some uni2 =>
                            if is_low uni2 then
                              scanstring
                                (65536 + (N.lor (N.shiftl (uni - 55296) 10)
                                                (uni2 - 56320)) :: acc) s12
                            else scanstring (uni :: acc) s6
                          end
                        | _ => JSONDecodeError
                        end
                      else scanstring (uni :: acc) s6
                    | [] => scanstring (uni :: acc) s6
                    end
                  else scanstring (uni :: acc) s6
                | [] => scanstring (uni :: acc) s6
                end
              else scanstring (uni :: acc) s6
            end
          | _ => JSONDecodeError
          end
        else
          match unescape esc with
          | Some ch => scanstring (ch :: acc) s2
          | None => JSONDecodeError
          end
      end
    else if c <? 32 then JSONDecodeError
    else scanstring (c :: acc) s1
  end.

(** [dict(pairs)] *)
Definition dict_of_pairs (pairs : list (str * json)) : dict str json :=
  fold_left (fun d kv => dict_set str_eqb (fst kv) (snd kv) d) pairs [].

(** [s] starts with the text [w]: the rest of [s] *)
Fixpoint strip_prefix (w s : str) : option str :=
  match w, s with
  | [], _ => Some s
  | x :: w', y :: s' => if x =? y then strip_prefix w' s' else None
  | _ :: _, [] => None
  end.

Section Containers.
(** [JSONObject] and [JSONArray] receive the scanner as an argument. *)
Variable scan_once : str -> outcome (json * str).

(** The loop of [JSONObject], from the character after the opening quote
    of a key; [pairs] is reversed. *)
Fixpoint object_loop (fuel : nat) (pairs : list (str * json)) (s : str)
  : outcome (json * str) :=
  match fuel with
  | O => Exhausted
  | S fuel' =>
    match scanstring [] s with
    | Ok (key, s1) =>
      match skip_ws s1 with
      | c :: s2 =>
        if c =? colon then
          match scan_once (skip_ws s2) with
          | Ok (value, s3) =>
            let pairs := (key, value) :: pairs in
            match skip_ws s3 with
            | d :: s4 =>
              if d =? rbrace
              then Ok (JObject (dict_of_pairs (rev pairs)), s4)
              else if d =? comma then
                match skip_ws s4 with
                | q :: s5 =>
                  if q =? quote then object_loop fuel' pairs s5
                  else JSONDecodeError
                | [] => JSONDecodeError
                end
              else JSONDecodeError
            | [] => JSONDecodeError
            end
          | JSONDecodeError => JSONDecodeError
          | Unmodelled => Unmodelled
          | Exhausted => Exhausted
          end
        else JSONDecodeError
      | [] => JSONDecodeError
      end
    | _ => JSONDecodeError
    end
  end.

(** [JSONObject], from the character after the opening brace *)
Definition JSONObject (fuel : nat) (s : str) : outcome (json * str) :=
  match skip_ws s with
  | c :: s' =>
    if c =? rbrace then Ok (JObject [], s')
    else if c =? quote then object_loop fuel [] s'
    else JSONDecodeError
  | [] => JSONDecodeError
  end.

(** The loop of [JSONArray], from the first character of a value *)
Fixpoint array_loop (fuel : nat) (values : list json) (s : str)
  : outcome (json * str) :=
  match fuel with
  | O => Exhausted
  | S fuel' =>
    match scan_once s with
    | Ok (value, s1) =>
      let values := value :: values in
      match skip_ws s1 with
      | c :: s2 =>
        if c =? rbracket then Ok (JArray (rev values), s2)
        else if c =? comma then array_loop fuel' values (skip_ws s2)
        else JSONDecodeError
      | [] => JSONDecodeError
      end
    | JSONDecodeError => JSONDecodeError
    | Unmodelled => Unmodelled
    | Exhausted => Exhausted
    end
  end.

(** [JSONArray], from the character after the opening bracket *)
Definition JSONArray (fuel : nat) (s : str) : outcome (json * str) :=
  match skip_ws s with
  | c :: s' =>
    if c =? rbracket then Ok (JArray [], s')
    else array_loop fuel [] (c :: s')
  | [] => JSONDecodeError
  end.
End Containers.

(** [_scan_once] of [py_make_scanner] *)
Fixpoint scan_once (fuel : nat) (s : str) : outcome (json * str) :=
  match fuel with
  | O => Exhausted
  | S fuel' =>
    match s with
    | [] => JSONDecodeError
    | c :: s' =>
      if c =? quote then
        match scanstring [] s' with
        | Ok (v, rest) => Ok (JString v, rest)
        | _ => JSONDecodeError
        end
      else if c =? lbrace then JSONObject (scan_once fuel') fuel' s'
      else if c =? lbracket then JSONArray (scan_once fuel') fuel' s'
      else
        match strip_prefix (lit "null") s, strip_prefix (lit "true") s,
              strip_prefix (lit "false") s with
        | Some rest, _, _ => Ok (JNull, rest)
        | _, Some rest, _ => Ok (JBool true, rest)
        | _, _, Some rest => Ok (JBool false, rest)
        | _, _, _ =>
            if ((48 <=? c) && (c <=? 57)) || (c =? 45) || (c =? 78) || (c =? 73)
            then Unmodelled
            else JSONDecodeError
        end
    end
  end.

(** [json.loads]: leading whitespace, one value, trailing whitespace, and
    nothing more.  No step of the scanner leaves the input as long as it
    was, so the length of the input bounds the nesting and the loops. *)
Definition loads (s : str) : outcome json :=
  match scan_once (S (length s)) (skip_ws s) with
  | Ok (v, rest) =>
      match skip_ws rest with
      | [] => Ok v
      | _ :: _ => JSONDecodeError
      end
  | JSONDecodeError => JSONDecodeError
  | Unmodelled => Unmodelled
  | Exhausted => Exhausted
  end.

End Json.

(* ================================================================== *)
(** ** InformationExtractor *)

Module InformationExtractor.

Definition get (k : str) (r : Record) : option str := dict_get str_eqb k r.
Definition set (k v : str) (r : Record) : Record := dict_set str_eqb k v r.
Definition mem (k : str) (r : Record) : bool := dict_mem str_eqb k r.

(** Body of the first loop: [match = re.search(...)], then
    [results[group(1).strip()] = group(2).strip()]. *)
Definition first_pass_step (results : Record) (line : str) : Record :=
  match Regex.search line with
  | Some (g1, g2) => set (strip g1) (strip g2) results
  | None => results
  end.

Definition first_pass (lines : list str) (results : Record) : Record :=
  fold_left first_pass_step lines results.

(** Body of the second loop: [if line and line not in results:
    results[line] = ""]. *)
Definition second_pass_step (results : Record) (line : str) : Record :=
  match line with
  | [] => results
  | _ :: _ => if mem line results then results else set line [] results
  end.

Definition second_pass (lines : list str) (results : Record) : Record :=
  fold_left second_pass_step lines results.

Definition extract_information (text : str) : Record :=
  let results := [] in
  let lines := splitlines text in
  let results := first_pass lines results in
  let results := second_pass lines results in
  results.

(** [save_to_json(data, output_file)]: the text written to the file *)
Definition save_to_json (data : list Record) : str := Json.dump data.

End InformationExtractor.
Import InformationExtractor.

(* ================================================================== *)
(** ** DocumentParser *)

Module DocumentParser.

Definition dotc : char := 46%N.

(** [s.lower()] on the ASCII letters; no other code point lower-cases to a
    letter of the two extensions compared below. *)
Definition lower_char (c : char) : char :=
  if ((65 <=? c) && (c <=? 90))%N then (c + 32)%N else c.
Definition lower (s : str) : str := map lower_char s.

(** [p.rfind(c)]: index of the last occurrence of [c], or [-1]. *)
Fixpoint rfind_from (c : char) (p : str) (i : Z) (last : Z) : Z :=
  match p with
  | [] => last
  | x :: p' => rfind_from c p' (i + 1) (if (x =? c)%N then i else last)
  end.
Definition rfind (c : char) (p : str) : Z := rfind_from c p 0 (-1).

(** [p[i:j]] for [0 <= i] *)
Definition slice (p : str) (i j : Z) : str :=
  firstn (Z.to_nat (j - i)) (skipn (Z.to_nat i) p).

Section Platform.
(** [os.path.sep] and [os.path.altsep] *)
Variable sep : char.
Variable altsep : option char.

(** [os.path.splitext]: the extension starts at the last dot of the last
    path component, unless that component has only dots before it. *)
Definition splitext (p : str) : str * str :=
  let sepIndex := rfind sep p in
  let sepIndex := match altsep with
                  | Some a => Z.max sepIndex (rfind a p)
                  | None => sepIndex
                  end in
  let dotIndex := rfind dotc p in
  if (sepIndex <? dotIndex)%Z then
    if existsb (fun c => negb (c =? dotc)%N) (slice p (sepIndex + 1) dotIndex)
    then (firstn (Z.to_nat dotIndex) p, skipn (Z.to_nat dotIndex) p)
    else (p, [])
  else (p, []).

(** The external decoders.  [pdf_pages path] is the list of
    [page.extract_text()] over [pdf.pages], and [html_get_text path] is
    [soup.get_text(separator='\n')] once scripts and styles are removed;
    [None] stands for any exception raised inside the [try]. *)
Variable pdf_pages : str -> option (list str).
Variable html_get_text : str -> option str.

Definition _parse_pdf (file_path : str) : str :=
  match pdf_pages file_path with
  | Some pages => strip (join [nl] pages)
  | None => []
  end.

Definition _parse_html (file_path : str) : str :=
  match html_get_text file_path with
  | Some text => strip text
  | None => []
  end.

Definition parse_document (file_path : str) : str :=
  let ext := snd (splitext file_path) in
  if str_eqb (lower ext) (lit ".pdf") then _parse_pdf file_path
  else if str_eqb (lower ext) (lit ".html") then _parse_html file_path
  else [].

(** The first two comprehensions of [main]: [parsed_docs], then
    [extracted_info]. *)
Definition parsed_docs (document_paths : list str) : list str :=
  map parse_document document_paths.

Definition extracted_info (document_paths : list str) : list Record :=
  map extract_information (parsed_docs document_paths).
End Platform.

End DocumentParser.

(* ================================================================== *)
(** ** RAGModel *)

Module RAGModel.

(** [l[:k]] for a Python integer [k] *)
Definition slice_to (A : Type) (l : list A) (k : Z) : list A :=
  if (k <? 0)%Z then firstn (Z.to_nat (Z.of_nat (length l) + k)) l
  else firstn (Z.to_nat k) l.

(** [enumerate(l)] *)
Definition enumerate (A : Type) (l : list A) : list (nat * A) :=
  combine (seq 0 (length l)) l.

Inductive result (A : Type) : Type :=
| Ok (a : A)
| KeyError (index : nat).
Arguments KeyError {A} index.

Section Retrieval.
(** The embedding model and the similarity are external: [encode text]
    is [self.model.encode([text])[0]], [cosine_similarity a b] is the
    single entry of sklearn's result, [score_ltb x y] is [x < y]. *)
Variables vec score : Type.
Variable encode : str -> vec.
Variable cosine_similarity : vec -> vec -> score.
Variable score_ltb : score -> score -> bool.

Record state : Type := mkState {
  document_embeddings : dict nat vec;
  documents : dict nat Record
}.

(** [RAGModel.__init__] *)
Definition init : state := mkState [] [].

(** The f-string [k: v] *)
Definition fmt (kv : str * str) : str := fst kv ++ lit ": " ++ snd kv.

(** The test [if v] of the generator: the value is a non-empty string. *)
Definition truthy (kv : str * str) : bool :=
  match snd kv with [] => false | _ :: _ => true end.

(** The generator over [content.items()], joined with one space *)
Definition representative (content : Record) : str :=
  join [space] (map fmt (filter truthy content)).

Definition add_step (st : state) (ic : nat * Record) : state :=
  let (index, content) := ic in
  let text := representative content in
  let embedding := encode text in
  mkState (dict_set Nat.eqb index embedding (document_embeddings st))
          (dict_set Nat.eqb index content (documents st)).

Definition add_documents (st : state) (docs : list Record) : state :=
  fold_left add_step (enumerate docs) st.

(** [sorted(items, key=lambda x: x[1], reverse=True)]: descending by
    score, and stable: items with equal scores keep their order. *)
Fixpoint insert_desc (x : nat * score) (l : list (nat * score)) :=
  match l with
  | [] => [x]
  | y :: l' => if score_ltb (snd x) (snd y) then y :: insert_desc x l'
               else x :: l
  end.

Fixpoint sorted_desc (l : list (nat * score)) : list (nat * score) :=
  match l with
  | [] => []
  | x :: l' => insert_desc x (sorted_desc l')
  end.

(** The loop filling [similarities] *)
Definition similarities (st : state) (question_embedding : vec)
  : dict nat score :=
  fold_left
    (fun sims ie =>
       dict_set Nat.eqb (fst ie)
                (cosine_similarity question_embedding (snd ie)) sims)
    (document_embeddings st) [].

Definition sorted_docs (st : state) (question : str) : list (nat * score) :=
  sorted_desc (similarities st (encode question)).

(** The final loop: [results.append(self.documents[index])] *)
Fixpoint collect (st : state) (l : list (nat * score))
  : result (list Record) :=
  match l with
  | [] => Ok []
  | (index, _) :: l' =>
      match dict_get Nat.eqb index (documents st) with
      | None => KeyError index
      | Some r =>
          match collect st l' with
          | Ok rs => Ok (r :: rs)
          | KeyError i => KeyError i
          end
      end
  end.

Definition query (st : state) (question : str) (top_k : Z)
  : result (list Record) :=
  collect st (slice_to (sorted_docs st question) top_k).

(** The states of a [RAGModel] object *)
Inductive reachable : state -> Prop :=
| reach_init : reachable init
| reach_add st docs : reachable st -> reachable (add_documents st docs).
End Retrieval.

End RAGModel.

(* ================================================================== *)
(** ** main *)

Module Main.
Section Run.
Variable sep : char.
Variable altsep : option char.
Variable pdf_pages : str -> option (list str).
Variable html_get_text : str -> option str.
Variable vec : Type.

(** What can raise inside the [try] of [main].  [writable] tells whether
    [open(output_file, 'w')] and the writes of [json.dump] succeed; when
    they do not, [save_to_json] raises an [OSError].  [encode text] is
    [self.model.encode([text])[0]], [None] when the model raises.  The
    comprehensions over [parse_document] and [extract_information] raise
    nothing, the decoders having their own [try]; the messages printed
    are left out, [print] taken not to raise. *)
Variable writable : bool.
Variable encode : str -> option vec.

(** The loop of [RAGModel.add_documents] when the model may raise: an
    exception leaves the loop at the call of [encode], before the two
    assignments of that turn, and the entries set in the turns before
    stay in the dicts.  The boolean tells whether the loop came to its
    end. *)
Fixpoint add_documents (st : RAGModel.state vec) (items : list (nat * Record))
  : RAGModel.state vec * bool :=
  match items with
  | [] => (st, true)
  | (index, content) :: items' =>
      let text := RAGModel.representative content in
      match encode text with
      | None => (st, false)
      | Some embedding =>
          add_documents
            (RAGModel.mkState
               (dict_set Nat.eqb index embedding (RAGModel.document_embeddings st))
               (dict_set Nat.eqb index content (RAGModel.documents st)))
            items'
      end
  end.

(** What a run of [main] leaves behind: the text written to
    [extracted_information.json], [None] when [save_to_json] raised and
    no complete file was written; the state of [rag_model]; and whether
    the [except] branch was taken. *)
Record run : Type := mkRun {
  json_file : option str;
  rag_model : RAGModel.state vec;
  caught : bool
}.

(** [main], for the list bound to [document_paths], with [rag_model]
    constructed.  An exception raised by [save_to_json] skips
    [add_documents]; one raised in [add_documents] comes after the file
    is written.  Both end in the [except] branch, which prints and
    returns. *)
Definition main (document_paths : list str) : run :=
  let parsed_docs :=
    map (DocumentParser.parse_document sep altsep pdf_pages html_get_text)
        document_paths in
  let extracted_info := map extract_information parsed_docs in
  if writable then
    let file := save_to_json extracted_info in
    let (rag, finished) :=
      add_documents (RAGModel.init vec) (RAGModel.enumerate extracted_info) in
    mkRun (Some file) rag (negb finished)
  else
    mkRun None (RAGModel.init vec) true.
End Run.
End Main.

(* ================================================================== *)
(** * Vocabulary of the properties *)

(** ** Lines and their split *)

(** No line of [splitlines] contains a line boundary. *)
Definition no_linebreak (line : str) : Prop :=
  Forall (fun c => islinebreak c = false) line.

(** The text before and after the first colon of [s], [pre] being the text
    already passed, reversed. *)
Fixpoint colon_split (pre : str) (s : str) : option (str * str) :=
  match s with
  | [] => None
  | c :: s' => if (c =? colon)%N then Some (rev pre, s')
               else colon_split (c :: pre) s'
  end.

(** A line splits at its first colon that has a character before it. *)
Definition line_split (line : str) : option (str * str) :=
  match line with
  | [] => None
  | a :: rest => colon_split [a] rest
  end.

(** [a] occurs in [b] as a run of consecutive characters. *)
Definition infix (a b : str) : Prop := exists p q, b = p ++ a ++ q.

(** The characters that separate the components of a path *)
Definition separators (sep : char) (altsep : option char) : list char :=
  sep :: match altsep with Some a => [a] | None => [] end.

(** The elements of [l] in the order of their first occurrence *)
Definition first_occurrences (l : list str) : list str :=
  rev (nodup (list_eq_dec N.eq_dec) (rev l)).

(** [line] is the empty string *)
Definition is_empty (line : str) : bool :=
  match line with [] => true | _ :: _ => false end.

(** The entry a line yields in the first pass: both sides of the split,
    stripped. *)
Definition produces (line : str) : option (str * str) :=
  match line_split line with
  | Some (pre, post) => Some (strip pre, strip post)
  | None => None
  end.

(** ** Retrieval *)

(** Assignments [d[i] = f w] for the pairs [(i, w)] of a list, in order *)
Definition set_all {V W : Type} (f : W -> V) (l : list (nat * W))
  (d : dict nat V) : dict nat V :=
  fold_left (fun d iw => dict_set Nat.eqb (fst iw) (f (snd iw)) d) l d.

(** Follows the specification of [add]: the pieces [key: value] of the
    entries whose value is non-empty, in the order of the record, one space
    between consecutive pieces; entries with an empty value give nothing. *)
Fixpoint representative_spec (r : Record) : str :=
  match r with
  | [] => []
  | (k, v) :: r' =>
      match v with
      | [] => representative_spec r'
      | _ :: _ =>
          if existsb (fun kv => negb (str_eqb (snd kv) [])) r'
          then k ++ lit ": " ++ v ++ [space] ++ representative_spec r'
          else k ++ lit ": " ++ v
      end
  end.

Module RetrievalSpec.
Section Vocabulary.
Variables vec score : Type.
Variable encode : str -> vec.
Variable cosine_similarity : vec -> vec -> score.
Variable score_ltb : score -> score -> bool.

(** The record stored under the index of a ranked item *)
Definition stored_at (st : RAGModel.state vec) (r : Record) (x : nat * score) : Prop :=
  dict_get Nat.eqb (fst x) (RAGModel.documents st) = Some r.

(** The similarity of every stored entry to the question, by index *)
Definition scored (st : RAGModel.state vec) (question : str) : list (nat * score) :=
  map (fun ie => (fst ie, cosine_similarity (encode question) (snd ie)))
      (RAGModel.document_embeddings st).

(** Both dicts hold the indices [0 .. n-1], in this order. *)
Definition indexed (st : RAGModel.state vec) (n : nat) : Prop :=
  keys (RAGModel.document_embeddings st) = seq 0 n /\
  keys (RAGModel.documents st) = seq 0 n.

(** [x] may come before [y] in the ranking: [x] does not score lower,
    and on equal scores [x] has the smaller index. *)
Definition ranks_before (x y : nat * score) : Prop :=
  score_ltb (snd x) (snd y) = false /\
  (score_ltb (snd y) (snd x) = false -> fst x < fst y).

End Vocabulary.
End RetrievalSpec.

(** ** A stub vectorizer

    A deterministic stand-in for the external model: the embedding of a
    text is the text, and the similarity of two embeddings is the length of
    their common prefix, so that a vector scores highest against itself. *)

Module Stub.

Fixpoint common_prefix (a b : str) : nat :=
  match a, b with
  | x :: a', y :: b' => if (x =? y)%N then S (common_prefix a' b') else 0
  | _, _ => 0
  end.

Definition encode (text : str) : str := text.
Definition cosine_similarity (a b : str) : Z := Z.of_nat (common_prefix a b).
Definition score_ltb : Z -> Z -> bool := Z.ltb.

Definition init := RAGModel.init str.
Definition add_documents := RAGModel.add_documents encode.
Definition query := RAGModel.query encode cosine_similarity score_ltb.

Definition dell : Record := [(lit "Name", lit "Dell"); (lit "Price", lit "500")].
Definition hp : Record := [(lit "Name", lit "HP"); (lit "Price", lit "450")].

(** Two records with one representative string *)
Definition plain : Record := [(lit "a", lit "b")].
Definition noted : Record := [(lit "a", lit "b"); (lit "x", [])].

End Stub.

(** A model that raises on one text, the representative string of the
    record [Name: HP] *)
Definition raising_encode (text : str) : option str :=
  if str_eqb text (lit "Name: HP") then None else Some text.

(** ** The JSON artifact *)

Module JsonSpec.
Import Json.
Local Open Scope N_scope.

(** What the scanner looks at after a high surrogate escape: whether a
    low surrogate escape, or a malformed escape, follows. *)
Definition low_escape_follows (t : str) : bool :=
  match t with
  | b :: t1 =>
    if b =? backslash then
      match t1 with
      | u :: t2 =>
        if u =? letter_u then
          match t2 with
          | k1 :: k2 :: k3 :: k4 :: _ =>
            match decode_uXXXX k1 k2 k3 k4 with
            | Some uni2 => is_low uni2
            | None => true
            end
          | _ => true
          end
        else false
      | [] => false
      end
    else false
  | [] => false
  end.

(** A string the escapes can carry: code points below 0x110000, and no
    high surrogate directly before a low surrogate. *)
Fixpoint json_safe (s : str) : Prop :=
  match s with
  | [] => True
  | c :: s' =>
      c < 1114112 /\
      (is_high c = true ->
       match s' with [] => True | c' :: _ => is_low c' = false end) /\
      json_safe s'
  end.

(** The value a record and a list of records decode to *)
Definition record_value (r : Record) : json :=
  JObject (map (fun kv => (fst kv, JString (snd kv))) r).

Definition records_value (data : list Record) : json :=
  JArray (map record_value data).

(** A record that is a dict of strings the escapes can carry *)
Definition record_safe (r : Record) : Prop :=
  NoDup (keys r) /\ Forall (fun kv => json_safe (fst kv) /\ json_safe (snd kv)) r.

(** Boolean forms of the side conditions, for concrete records *)
Fixpoint json_safeb (s : str) : bool :=
  match s with
  | [] => true
  | c :: s' =>
      (c <? 1114112)
      && (negb (is_high c)
          || match s' with [] => true | c' :: _ => negb (is_low c') end)
      && json_safeb s'
  end.

Fixpoint distinctb (l : list str) : bool :=
  match l with
  | [] => true
  | x :: l' => negb (existsb (str_eqb x) l') && distinctb l'
  end.

Definition record_safeb (r : Record) : bool :=
  distinctb (keys r)
  && forallb (fun kv => json_safeb (fst kv) && json_safeb (snd kv)) r.

(** A character of the written file: a newline or a printable ASCII
    character, from the space to the tilde *)
Definition plain_ascii (c : char) : Prop :=
  c = nl \/ (32 <= c /\ c <= 126).

End JsonSpec.
Import JsonSpec.

(* ================================================================== *)
(** * Properties *)

Unset Implicit Arguments.

(** ** Strings *)

Lemma str_eqb_eq (a b : str) : str_eqb a b = true <-> a = b.
Proof.
  unfold str_eqb. destruct (list_eq_dec N.eq_dec a b); split; congruence.
Qed.

Lemma str_eqb_refl (a : str) : str_eqb a a = true.
Proof. now apply str_eqb_eq. Qed.

Lemma str_eqb_neq (a b : str) : a <> b -> str_eqb a b = false.
Proof.
  intros H. destruct (str_eqb a b) eqn:E; [|reflexivity].
  apply str_eqb_eq in E. contradiction.
Qed.

Lemma lstrip_idem (s : str) : lstrip (lstrip s) = lstrip s.
Proof.
  induction s as [|c s IH]; simpl; [reflexivity|].
  destruct (isspace c) eqn:E; [exact IH|]. simpl. now rewrite E.
Qed.

Lemma strip_lstrip (s : str) : strip (lstrip s) = strip s.
Proof. unfold strip. now rewrite lstrip_idem. Qed.

Lemma splitlines_from_no_linebreak_len (n : nat) :
  forall (s cur : str), length s <= n -> no_linebreak cur ->
  Forall no_linebreak (splitlines_from cur s).
Proof.
  induction n as [|n IH]; intros s cur Hlen Hcur.
  - destruct s; [|simpl in Hlen; lia]. simpl.
    destruct cur; constructor; [|constructor].
    apply Forall_rev. exact Hcur.
  - destruct s as [|c s]; simpl.
    + destruct cur; constructor; [|constructor].
      apply Forall_rev. exact Hcur.
    + simpl in Hlen.
      destruct (islinebreak c) eqn:E.
      * constructor; [apply Forall_rev; exact Hcur|].
        destruct (c =? cr)%N.
        -- destruct s as [|c' s'].
           ++ apply IH; [simpl; lia|constructor].
           ++ simpl in Hlen.
              destruct (c' =? nl)%N; apply IH; simpl; try lia; constructor.
        -- apply IH; [lia|constructor].
      * apply IH; [lia|]. constructor; assumption.
Qed.

Lemma splitlines_no_linebreak (text : str) :
  Forall no_linebreak (splitlines text).
Proof.
  apply (splitlines_from_no_linebreak_len (length text));
    [lia|constructor].
Qed.

Lemma no_linebreak_dot (line : str) :
  no_linebreak line -> Forall (fun c => Regex.dot c = true) line.
Proof.
  apply Forall_impl. intros c H. unfold Regex.dot.
  destruct (c =? nl)%N eqn:E; [|reflexivity].
  apply N.eqb_eq in E. subst c. discriminate H.
Qed.

(** ** The pattern on a line *)

Lemma colon_split_app (pre0 pre post : str) :
  ~ In colon pre ->
  colon_split pre0 (pre ++ colon :: post) = Some (rev pre0 ++ pre, post).
Proof.
  revert pre0. induction pre as [|c pre IH]; intros pre0 Hnin; simpl.
  - now rewrite app_nil_r.
  - destruct (c =? colon)%N eqn:E.
    + apply N.eqb_eq in E. exfalso. apply Hnin. now left.
    + rewrite IH; [|intros H; apply Hnin; now right].
      simpl. now rewrite <- app_assoc.
Qed.

Lemma colon_split_inv (s pre0 g post : str) :
  colon_split pre0 s = Some (g, post) ->
  exists pre, s = pre ++ colon :: post /\ ~ In colon pre /\ g = rev pre0 ++ pre.
Proof.
  revert pre0. induction s as [|c s IH]; intros pre0 H; simpl in H.
  - discriminate.
  - destruct (c =? colon)%N eqn:E.
    + apply N.eqb_eq in E. subst c. inversion H; subst.
      exists []. simpl. rewrite app_nil_r. repeat split. intros [].
    + apply IH in H. destruct H as (pre & -> & Hnin & ->).
      exists (c :: pre). simpl. rewrite <- app_assoc. repeat split.
      intros [Hc|Hc]; [|contradiction].
      subst c. now rewrite N.eqb_refl in E.
Qed.

Lemma colon_split_none (s pre0 : str) :
  colon_split pre0 s = None <-> ~ In colon s.
Proof.
  revert pre0. induction s as [|c s IH]; intros pre0; simpl.
  - split; [intros _ []|reflexivity].
  - destruct (c =? colon)%N eqn:E.
    + apply N.eqb_eq in E. subst c. split; [discriminate|].
      intros H. exfalso. apply H. now left.
    + rewrite IH. apply N.eqb_neq in E. split.
      * intros H [Hc|Hc]; [congruence|contradiction].
      * intros H Hc. apply H. now right.
Qed.

Lemma lazy_key_colon_split (s g1 : str) (a : char) :
  Forall (fun c => Regex.dot c = true) (a :: s) ->
  Regex.lazy_key g1 (a :: s) = colon_split (a :: g1) s.
Proof.
  revert a g1. induction s as [|c s IH]; intros a g1 Hdot.
  - simpl. inversion Hdot; subst. now rewrite H1.
  - inversion Hdot; subst.
    change (Regex.lazy_key g1 (a :: c :: s))
      with (if Regex.dot a
            then if (c =? colon)%N then Some (rev (a :: g1), s)
                 else Regex.lazy_key (a :: g1) (c :: s)
            else None).
    rewrite H1. cbn [colon_split].
    destruct (c =? colon)%N; [reflexivity|].
    apply IH. assumption.
Qed.

Lemma search_no_colon (s : str) :
  ~ In colon (tl s) -> Regex.search s = None.
Proof.
  assert (Hk : forall s g1, ~ In colon (tl s) -> Regex.lazy_key g1 s = None).
  { clear s. induction s as [|c s IH]; intros g1 H; simpl; [reflexivity|].
    destruct (Regex.dot c); [|reflexivity].
    destruct s as [|c' s']; [reflexivity|].
    simpl in H. destruct (c' =? colon)%N eqn:E.
    - apply N.eqb_eq in E. exfalso. apply H. now left.
    - apply IH. simpl. intros Hc. apply H. now right. }
  induction s as [|c s IH]; intros H; simpl.
  - reflexivity.
  - unfold Regex.match_here. rewrite (Hk (c :: s) [] H).
    apply IH. simpl in H. destruct s; simpl; [intros []|].
    intros Hc. apply H. now right.
Qed.

Lemma dot_star_all (s : str) :
  Forall (fun c => Regex.dot c = true) s -> Regex.dot_star s = s.
Proof.
  induction 1 as [|c s Hc _ IH]; simpl; [reflexivity|].
  now rewrite Hc, IH.
Qed.

Lemma skip_spaces_lstrip (s : str) : Regex.skip_spaces s = lstrip s.
Proof. induction s as [|c s IH]; simpl; [|rewrite IH]; reflexivity. Qed.

Lemma Forall_lstrip (P : char -> Prop) (s : str) :
  Forall P s -> Forall P (lstrip s).
Proof.
  induction 1 as [|c s Hc Hs IH]; simpl; [constructor|].
  destruct (isspace c); [exact IH|now constructor].
Qed.

(** On a line, [re.search] finds the split of [line_split], and the
    stripped second group is the stripped text after the colon. *)
Lemma search_line (line : str) :
  no_linebreak line ->
  match Regex.search line, line_split line with
  | Some (g1, g2), Some (pre, post) => g1 = pre /\ strip g2 = strip post
  | None, None => True
  | _, _ => False
  end.
Proof.
  intros Hnl. apply no_linebreak_dot in Hnl.
  destruct line as [|a rest]; simpl; [exact I|].
  unfold Regex.match_here.
  rewrite (lazy_key_colon_split rest [] a Hnl).
  destruct (colon_split [a] rest) as [[pre post]|] eqn:E.
  - split; [reflexivity|].
    apply colon_split_inv in E. destruct E as (p & -> & _ & _).
    inversion Hnl as [|? ? _ Hrest]; subst.
    apply Forall_app in Hrest. destruct Hrest as [_ Hpost].
    inversion Hpost as [|? ? _ Hpost']; subst.
    rewrite skip_spaces_lstrip.
    rewrite dot_star_all by (apply Forall_lstrip; exact Hpost').
    apply strip_lstrip.
  - apply colon_split_none in E.
    rewrite (search_no_colon rest).
    + exact I.
    + intros H. apply E. destruct rest; simpl in H; [contradiction|now right].
Qed.

(** ** Dicts *)

Section DictFacts.
Context {K V : Type} (eqb : K -> K -> bool).
Hypothesis eqb_eq : forall a b, eqb a b = true <-> a = b.

Lemma eqb_same (a : K) : eqb a a = true.
Proof. now apply eqb_eq. Qed.

Lemma eqb_diff (a b : K) : a <> b -> eqb a b = false.
Proof.
  intros H. destruct (eqb a b) eqn:E; [|reflexivity].
  apply eqb_eq in E. contradiction.
Qed.

Lemma dict_get_set_same (k : K) (v : V) (d : dict K V) :
  dict_get eqb k (dict_set eqb k v d) = Some v.
Proof.
  induction d as [|[k' v'] d IH]; simpl.
  - now rewrite eqb_same.
  - destruct (eqb k k') eqn:E; simpl; rewrite E; [reflexivity|exact IH].
Qed.

Lemma dict_get_set_other (k k' : K) (v : V) (d : dict K V) :
  k <> k' -> dict_get eqb k (dict_set eqb k' v d) = dict_get eqb k d.
Proof.
  intros Hne. induction d as [|[k0 v0] d IH]; simpl.
  - now rewrite eqb_diff.
  - destruct (eqb k' k0) eqn:E; simpl.
    + apply eqb_eq in E. subst k0. now rewrite (eqb_diff k k').
    + destruct (eqb k k0); [reflexivity|exact IH].
Qed.

Lemma dict_get_none_iff (k : K) (d : dict K V) :
  dict_get eqb k d = None <-> ~ In k (keys d).
Proof.
  induction d as [|[k' v'] d IH]; simpl.
  - split; [intros _ []|reflexivity].
  - destruct (eqb k k') eqn:E.
    + apply eqb_eq in E. subst k'. split; [discriminate|].
      intros H. exfalso. apply H. now left.
    + rewrite IH. split.
      * intros H [Hk|Hk]; [|contradiction].
        subst k'. now rewrite eqb_same in E.
      * intros H Hk. apply H. now right.
Qed.

Lemma dict_get_In (k : K) (v : V) (d : dict K V) :
  dict_get eqb k d = Some v -> In (k, v) d.
Proof.
  induction d as [|[k' v'] d IH]; simpl; [discriminate|].
  destruct (eqb k k') eqn:E.
  - apply eqb_eq in E. subst k'. intros H. inversion H. now left.
  - intros H. right. now apply IH.
Qed.

Lemma dict_get_NoDup (k : K) (v : V) (d : dict K V) :
  NoDup (keys d) -> In (k, v) d -> dict_get eqb k d = Some v.
Proof.
  induction d as [|[k' v'] d IH]; simpl; [intros _ []|].
  intros Hnd [Hin|Hin].
  - inversion Hin; subst. now rewrite eqb_same.
  - inversion Hnd as [|? ? Hnin Hnd']; subst.
    destruct (eqb k k') eqn:E.
    + apply eqb_eq in E. subst k'. exfalso. apply Hnin.
      change k with (fst (k, v)). now apply in_map.
    + now apply IH.
Qed.

Lemma dict_set_new (k : K) (v : V) (d : dict K V) :
  dict_get eqb k d = None -> dict_set eqb k v d = d ++ [(k, v)].
Proof.
  induction d as [|[k' v'] d IH]; simpl; [reflexivity|].
  destruct (eqb k k'); [discriminate|].
  intros H. now rewrite IH.
Qed.

Lemma dict_set_keys_old (k : K) (v : V) (d : dict K V) :
  dict_get eqb k d <> None -> keys (dict_set eqb k v d) = keys d.
Proof.
  induction d as [|[k' v'] d IH]; simpl; [congruence|].
  destruct (eqb k k') eqn:E; simpl; [reflexivity|].
  intros H. now rewrite IH.
Qed.

Lemma dict_get_app (k : K) (d d' : dict K V) :
  dict_get eqb k (d ++ d') =
  match dict_get eqb k d with
  | Some v => Some v
  | None => dict_get eqb k d'
  end.
Proof.
  induction d as [|[k' v'] d IH]; simpl; [reflexivity|].
  destruct (eqb k k'); [reflexivity|exact IH].
Qed.

Lemma dict_set_NoDup (k : K) (v : V) (d : dict K V) :
  NoDup (keys d) -> NoDup (keys (dict_set eqb k v d)).
Proof.
  intros Hnd. destruct (dict_get eqb k d) eqn:E.
  - rewrite dict_set_keys_old by congruence. exact Hnd.
  - rewrite dict_set_new by exact E. unfold keys. rewrite map_app. simpl.
    apply NoDup_app; [exact Hnd|apply NoDup_cons; [intros []|constructor]|].
    intros x Hx [Hk|[]]. subst x.
    apply dict_get_none_iff in E. contradiction.
Qed.

Lemma dict_set_In (k : K) (v : V) (d : dict K V) (kv : K * V) :
  In kv (dict_set eqb k v d) -> fst kv = k /\ snd kv = v \/ In kv d.
Proof.
  induction d as [|[k' v'] d IH]; simpl.
  - intros [<-|[]]. now left.
  - destruct (eqb k k') eqn:E.
    + apply eqb_eq in E. subst k'. intros [<-|H]; [now left|right; now right].
    + intros [<-|H]; [right; now left|].
      destruct (IH H) as [Hn|Ho]; [now left|right; now right].
Qed.
End DictFacts.

(** ** Extraction *)

Lemma first_pass_step_produces (r : Record) (line : str) :
  no_linebreak line ->
  first_pass_step r line =
  match produces line with
  | Some (k, v) => set k v r
  | None => r
  end.
Proof.
  intros Hnl. unfold first_pass_step, produces.
  pose proof (search_line line Hnl) as H.
  destruct (Regex.search line) as [[g1 g2]|], (line_split line) as [[pre post]|];
    try contradiction; [|reflexivity].
  destruct H as [-> ->]. reflexivity.
Qed.

Lemma get_set_same (k v : str) (r : Record) : get k (set k v r) = Some v.
Proof. apply dict_get_set_same, str_eqb_eq. Qed.

Lemma get_set_other (k k' v : str) (r : Record) :
  k <> k' -> get k (set k' v r) = get k r.
Proof. apply dict_get_set_other, str_eqb_eq. Qed.

Lemma first_pass_app (l1 l2 : list str) (r : Record) :
  first_pass (l1 ++ l2) r = first_pass l2 (first_pass l1 r).
Proof. apply fold_left_app. Qed.

Lemma first_pass_keeps (lines : list str) (r : Record) (k v : str) :
  Forall no_linebreak lines ->
  (forall line k' v', In line lines -> produces line = Some (k', v') -> k' <> k) ->
  get k r = Some v ->
  get k (first_pass lines r) = Some v.
Proof.
  revert r. induction lines as [|line lines IH]; intros r Hnl Hother Hget.
  - exact Hget.
  - cbn [first_pass fold_left]. inversion Hnl; subst.
    apply IH; [assumption| |].
    + intros l k' v' Hin. apply Hother. now right.
    + rewrite first_pass_step_produces by assumption.
      destruct (produces line) as [[k' v']|] eqn:E; [|exact Hget].
      rewrite get_set_other; [exact Hget|].
      intros Heq. apply (Hother line k' v'); [now left|exact E|congruence].
Qed.

Lemma second_pass_step_keeps (line : str) (r : Record) (k v : str) :
  get k r = Some v -> get k (second_pass_step r line) = Some v.
Proof.
  intros Hget. unfold second_pass_step.
  destruct line as [|c line]; [exact Hget|].
  destruct (mem (c :: line) r) eqn:E; [exact Hget|].
  rewrite get_set_other; [exact Hget|].
  intros ->. unfold mem, dict_mem in E. unfold get in Hget.
  now rewrite Hget in E.
Qed.

Lemma second_pass_keeps (lines : list str) (r : Record) (k v : str) :
  get k r = Some v -> get k (second_pass lines r) = Some v.
Proof.
  revert r. induction lines as [|line lines IH]; intros r Hget; [exact Hget|].
  cbn [second_pass fold_left]. apply IH. now apply second_pass_step_keeps.
Qed.

Lemma line_split_app (a : char) (p post : str) :
  ~ In colon p -> line_split (a :: p ++ colon :: post) = Some (a :: p, post).
Proof. intros H. simpl. now rewrite colon_split_app. Qed.

Lemma line_split_inv (line pre post : str) :
  line_split line = Some (pre, post) ->
  exists a p, line = a :: p ++ colon :: post /\ ~ In colon p /\ pre = a :: p.
Proof.
  destruct line as [|a rest]; simpl; [discriminate|].
  intros H. apply colon_split_inv in H. destruct H as (p & -> & Hnin & ->).
  now exists a, p.
Qed.

Lemma get_app_added (k : str) (r : Record) (line : str) :
  get k (r ++ [(line, [])]) = None <-> get k r = None /\ k <> line.
Proof.
  unfold get. rewrite dict_get_app. simpl.
  destruct (dict_get str_eqb k r).
  - split; [discriminate|intros [H _]; discriminate].
  - destruct (str_eqb k line) eqn:E.
    + apply str_eqb_eq in E. split; [discriminate|intros [_ H]; contradiction].
    + split; [|reflexivity]. intros _. split; [reflexivity|].
      intros ->. now rewrite str_eqb_refl in E.
Qed.

(** What the second loop appends: one empty-valued entry for each distinct
    non-empty line that is not yet a key. *)
Lemma second_pass_spec (lines : list str) (r : Record) :
  exists added,
    second_pass lines r = r ++ added /\
    forall k v, In (k, v) added <->
                (v = [] /\ In k lines /\ k <> [] /\ get k r = None).
Proof.
  unfold second_pass.
  revert r. induction lines as [|line lines IH]; intros r.
  - exists []. split; [simpl; now rewrite app_nil_r|].
    intros k v. split; [intros []|intros (_ & [] & _)].
  - cbn [fold_left]. unfold second_pass_step at 2.
    destruct line as [|c line].
    + destruct (IH r) as (added & Heq & Hiff). exists added. split; [exact Heq|].
      intros k v. rewrite Hiff. split.
      * intros (? & ? & ? & ?). repeat split; try assumption. now right.
      * intros (? & [Hk|Hk] & Hne & ?); [congruence|]. now repeat split.
    + destruct (mem (c :: line) r) eqn:E.
      * destruct (IH r) as (added & Heq & Hiff). exists added.
        split; [exact Heq|]. intros k v. rewrite Hiff. split.
        -- intros (? & ? & ? & ?). repeat split; try assumption. now right.
        -- intros (? & [Hk|Hk] & Hne & Hg); [|now repeat split].
           subst k. unfold mem, dict_mem in E. unfold get in Hg.
           now rewrite Hg in E.
      * assert (Hnone : get (c :: line) r = None).
        { unfold mem, dict_mem in E. unfold get.
          destruct (dict_get str_eqb (c :: line) r); [discriminate|reflexivity]. }
        unfold set. rewrite (dict_set_new str_eqb) by exact Hnone.
        destruct (IH (r ++ [(c :: line, [])])) as (added & Heq & Hiff).
        exists ((c :: line, []) :: added). split.
        -- etransitivity; [exact Heq|]. now rewrite <- app_assoc.
        -- intros k v. simpl. rewrite Hiff, get_app_added. split.
           ++ intros [Hkv|(? & ? & ? & ? & ?)].
              ** inversion Hkv; subst. repeat split; auto. discriminate.
              ** repeat split; auto.
           ++ intros (-> & [Hk|Hk] & Hne & Hg).
              ** left. now subst k.
              ** destruct (list_eq_dec N.eq_dec k (c :: line)) as [->|Hd].
                 --- now left.
                 --- right. repeat split; auto.
Qed.

Lemma lstrip_all_space (s : str) :
  Forall (fun c => isspace c = true) s -> lstrip s = [].
Proof.
  induction 1 as [|c s Hc _ IH]; simpl; [reflexivity|]. now rewrite Hc.
Qed.

Lemma strip_all_space (s : str) :
  Forall (fun c => isspace c = true) s -> strip s = [].
Proof. intros H. unfold strip. now rewrite lstrip_all_space. Qed.

Lemma first_pass_step_present (r : Record) (line k : str) :
  get k r <> None -> get k (first_pass_step r line) <> None.
Proof.
  intros H. unfold first_pass_step.
  destruct (Regex.search line) as [[g1 g2]|]; [|exact H].
  destruct (list_eq_dec N.eq_dec k (strip g1)) as [->|Hne].
  - rewrite get_set_same. discriminate.
  - now rewrite get_set_other.
Qed.

Lemma first_pass_present (lines : list str) (r : Record) (k : str) :
  get k r <> None -> get k (first_pass lines r) <> None.
Proof.
  unfold first_pass. revert r.
  induction lines as [|line lines IH]; intros r H; [exact H|].
  cbn [fold_left]. apply IH. now apply first_pass_step_present.
Qed.

(** The first pass at the line that yields a key. *)
Lemma first_pass_at (l1 l2 : list str) (line k v : str) :
  Forall no_linebreak (l1 ++ line :: l2) ->
  produces line = Some (k, v) ->
  first_pass (l1 ++ line :: l2) [] =
  first_pass l2 (set k v (first_pass l1 [])).
Proof.
  intros Hnl Hp. rewrite first_pass_app. unfold first_pass at 1.
  cbn [fold_left]. fold (first_pass l1 []).
  rewrite first_pass_step_produces.
  - rewrite Hp. reflexivity.
  - apply Forall_app in Hnl. destruct Hnl as [_ Hnl]. now inversion Hnl.
Qed.

(** C1, the scenario of the specification evaluated on the code: the
    two-line text ["Name: Dell"], ["Price: 500"] yields four entries, the
    two key/value entries and then each whole line as a key with an empty
    value, because the second loop tests the whole line against the keys. *)
Theorem C1_extract_scenario_four_entries :
  extract_information (lit "Name: Dell" ++ nl :: lit "Price: 500") =
  [ (lit "Name", lit "Dell"); (lit "Price", lit "500");
    (lit "Name: Dell", []); (lit "Price: 500", []) ].
Proof. vm_compute. reflexivity. Qed.

(** C3, as stated, fails on a line whose only colon is its first
    character: the line [":x"] contains a colon, yet no entry with the
    empty key and value ["x"] is written; the line is kept whole by the
    second loop. *)
Lemma C3_counterexample_leading_colon :
  In colon (lit ":x") /\
  splitlines (lit ":x") = [lit ":x"] /\
  get [] (extract_information (lit ":x")) = None /\
  extract_information (lit ":x") = [(lit ":x", [])].
Proof. vm_compute. repeat split. now left. Qed.

(** C3, amended: a line that has a colon after at least one character
    splits at the first such colon; key and value are the stripped texts
    before and after it; and the returned record maps the key to the value
    of the last line that yields this key. *)
Theorem C3_split_at_first_colon_last_wins
  (text : str) (l1 l2 : list str) (line : str) (a : char) (p post : str) :
  splitlines text = l1 ++ line :: l2 ->
  line = a :: p ++ colon :: post ->
  ~ In colon p ->
  (forall line' a' p' post',
      In line' l2 -> line' = a' :: p' ++ colon :: post' -> ~ In colon p' ->
      strip (a' :: p') <> strip (a :: p)) ->
  get (strip (a :: p)) (extract_information text) = Some (strip post).
Proof.
  intros Hsplit -> Hnin Hlast.
  pose proof (splitlines_no_linebreak text) as Hnl. rewrite Hsplit in Hnl.
  unfold extract_information. rewrite Hsplit.
  apply second_pass_keeps.
  rewrite (first_pass_at l1 l2 _ (strip (a :: p)) (strip post) Hnl).
  - apply first_pass_keeps.
    + apply Forall_app in Hnl. destruct Hnl as [_ Hnl]. now inversion Hnl.
    + intros line' k' v' Hin Hp. unfold produces in Hp.
      destruct (line_split line') as [[pre' post']|] eqn:E; [|discriminate].
      inversion Hp; subst.
      apply line_split_inv in E. destruct E as (a' & p' & -> & Hnin' & ->).
      now apply (Hlast _ a' p' post' Hin).
    + apply get_set_same.
  - unfold produces. now rewrite line_split_app.
Qed.

Lemma C3_witness :
  get (lit "a") (extract_information (lit "a: 1" ++ nl :: lit "a:2")) =
  Some (lit "2").
Proof.
  apply (C3_split_at_first_colon_last_wins
           (lit "a: 1" ++ nl :: lit "a:2") [lit "a: 1"] [] (lit "a:2")
           97%N [] (lit "2")).
  - reflexivity.
  - reflexivity.
  - intros [].
  - intros line' a' p' post' [].
Defined.

(** C5, as stated, fails on a line of whitespace: the one-space text has
    one line, which is empty once stripped, and the second loop inserts it
    as a key. *)
Lemma C5_counterexample_whitespace_line :
  splitlines [space] = [[space]] /\
  strip [space] = [] /\
  first_pass (splitlines [space]) [] = [] /\
  second_pass (splitlines [space]) (first_pass (splitlines [space]) []) =
  [([space], [])].
Proof. vm_compute. repeat split. Qed.

Lemma lstrip_head (s : str) :
  match lstrip s with [] => True | c :: _ => isspace c = false end.
Proof.
  induction s as [|c s IH]; simpl; [exact I|].
  destruct (isspace c) eqn:E; [exact IH|exact E].
Qed.

(** A stripped text is empty or has a character that is not whitespace. *)
Lemma strip_blank (x : str) :
  Forall (fun c => isspace c = true) (strip x) -> strip x = [].
Proof.
  unfold strip, rstrip. intros H.
  pose proof (lstrip_head (rev (lstrip x))) as Hhead.
  destruct (lstrip (rev (lstrip x))) as [|c z]; [reflexivity|].
  apply Forall_rev in H. rewrite rev_involutive in H.
  inversion H as [|? ? Hc _]; subst. congruence.
Qed.

Lemma first_pass_keys_stripped (lines : list str) (r : Record) (k : str) :
  In k (keys (first_pass lines r)) ->
  In k (keys r) \/ exists x, k = strip x.
Proof.
  unfold first_pass. revert r.
  induction lines as [|line lines IH]; intros r Hin; [now left|].
  cbn [fold_left] in Hin. destruct (IH _ Hin) as [Hk|Hk]; [|now right].
  unfold first_pass_step in Hk.
  destruct (Regex.search line) as [[g1 g2]|]; [|now left].
  unfold keys in Hk. apply in_map_iff in Hk. destruct Hk as (kv & <- & Hkv).
  apply (dict_set_In str_eqb str_eqb_eq) in Hkv.
  destruct Hkv as [[Hk _]|Hkv].
  - right. now exists g1.
  - left. now apply in_map.
Qed.

(** C5, amended: the second loop appends entries to the record of the first
    loop; an entry is appended only if its value is the empty string and
    its key is a line that is non-empty as it stands (nothing is stripped)
    and is not already a key; and a line made of whitespace only, with at
    least one character, is appended. *)
Theorem C5_second_pass_inserts (text : str) :
  exists added,
    extract_information text = first_pass (splitlines text) [] ++ added /\
    (forall k v,
        In (k, v) added ->
        v = [] /\ In k (splitlines text) /\ k <> [] /\
        get k (first_pass (splitlines text) []) = None) /\
    (forall k,
        In k (splitlines text) -> k <> [] ->
        Forall (fun c => isspace c = true) k ->
        In (k, []) added).
Proof.
  unfold extract_information.
  destruct (second_pass_spec (splitlines text) (first_pass (splitlines text) []))
    as (added & Heq & Hiff).
  exists added. split; [exact Heq|]. split.
  - intros k v Hin. now apply Hiff.
  - intros k Hin Hne Hws. apply Hiff. repeat split; try assumption.
    apply (dict_get_none_iff str_eqb str_eqb_eq). intros Hk.
    apply first_pass_keys_stripped in Hk. destruct Hk as [[]|[x ->]].
    apply Hne, strip_blank, Hws.
Qed.

(** C10: when a line has only whitespace, and at least one character,
    before its first colon, the returned record has the empty string as a
    key. *)
Theorem C10_empty_key (text line ws rest : str) :
  In line (splitlines text) ->
  line = ws ++ colon :: rest ->
  ws <> [] ->
  Forall (fun c => isspace c = true) ws ->
  exists v, get [] (extract_information text) = Some v.
Proof.
  intros Hin -> Hne Hws.
  destruct ws as [|a p]; [congruence|].
  assert (Hnin : ~ In colon p).
  { intros Hc. inversion Hws as [|? ? _ Hp]; subst.
    rewrite Forall_forall in Hp. specialize (Hp _ Hc). discriminate Hp. }
  apply in_split in Hin. destruct Hin as (l1 & l2 & Hsplit).
  pose proof (splitlines_no_linebreak text) as Hnl. rewrite Hsplit in Hnl.
  assert (Hk : get [] (extract_information text) <> None).
  { unfold extract_information. rewrite Hsplit.
    rewrite (first_pass_at l1 l2 _ [] (strip rest) Hnl).
    - destruct (get [] (first_pass l2 (set [] (strip rest) (first_pass l1 []))))
        as [v|] eqn:E.
      + rewrite (second_pass_keeps _ _ _ _ E). discriminate.
      + exfalso. revert E. apply first_pass_present.
        rewrite get_set_same. discriminate.
    - unfold produces. simpl app. rewrite line_split_app by exact Hnin.
      now rewrite (strip_all_space (a :: p)). }
  destruct (get [] (extract_information text)) as [v|]; [|congruence].
  now exists v.
Qed.

Lemma C10_witness :
  get [] (extract_information (lit " : value")) = Some (lit "value") /\
  exists v, get [] (extract_information (lit " : value")) = Some v.
Proof.
  split; [reflexivity|].
  apply (C10_empty_key (lit " : value") (lit " : value") [space] (lit " value")).
  - now left.
  - reflexivity.
  - discriminate.
  - repeat constructor.
Defined.

(** ** Retrieval *)

Lemma nat_eqb_eq (a b : nat) : Nat.eqb a b = true <-> a = b.
Proof. apply Nat.eqb_eq. Qed.

Lemma set_all_get_other {V W : Type} (f : W -> V) (l : list (nat * W))
  (d : dict nat V) (i : nat) :
  ~ In i (map fst l) ->
  dict_get Nat.eqb i (set_all f l d) = dict_get Nat.eqb i d.
Proof.
  unfold set_all. revert d.
  induction l as [|[j w] l IH]; intros d Hnin; [reflexivity|].
  cbn [fold_left fst snd]. rewrite IH.
  - apply (dict_get_set_other Nat.eqb nat_eqb_eq).
    intros ->. apply Hnin. now left.
  - intros H. apply Hnin. now right.
Qed.

Lemma set_all_get {V W : Type} (f : W -> V) (l : list (nat * W))
  (d : dict nat V) (i : nat) (w : W) :
  NoDup (map fst l) -> In (i, w) l ->
  dict_get Nat.eqb i (set_all f l d) = Some (f w).
Proof.
  revert d. induction l as [|[j w'] l IH]; intros d Hnd Hin; [destruct Hin|].
  inversion Hnd as [|? ? Hnin Hnd']; subst.
  destruct Hin as [Heq|Hin].
  - inversion Heq; subst.
    change (set_all f ((i, w) :: l) d)
      with (set_all f l (dict_set Nat.eqb i (f w) d)).
    rewrite set_all_get_other by exact Hnin.
    apply (dict_get_set_same Nat.eqb nat_eqb_eq).
  - change (set_all f ((j, w') :: l) d)
      with (set_all f l (dict_set Nat.eqb j (f w') d)).
    now apply IH.
Qed.

Lemma keys_seq_get {V : Type} (d : dict nat V) (n i : nat) :
  keys d = seq 0 n ->
  (dict_get Nat.eqb i d = None <-> n <= i).
Proof.
  intros Hk. rewrite (dict_get_none_iff Nat.eqb nat_eqb_eq), Hk, in_seq.
  lia.
Qed.

Lemma set_all_keys {V W : Type} (f : W -> V) (vals : list W) :
  forall (a : nat) (d : dict nat V) (n : nat),
    keys d = seq 0 n -> a <= n ->
    keys (set_all f (combine (seq a (length vals)) vals) d) =
    seq 0 (Nat.max n (a + length vals)).
Proof.
  induction vals as [|w vals IH]; intros a d n Hk Ha.
  - simpl. rewrite Hk. f_equal. lia.
  - cbn [length seq combine].
    change (set_all f ((a, w) :: combine (seq (S a) (length vals)) vals) d)
      with (set_all f (combine (seq (S a) (length vals)) vals)
                    (dict_set Nat.eqb a (f w) d)).
    destruct (Nat.eq_dec a n) as [->|Hne].
    + rewrite (IH (S n) _ (S n)); [f_equal; lia| |lia].
      rewrite (dict_set_new Nat.eqb).
      * unfold keys in *. rewrite map_app, Hk, seq_S. reflexivity.
      * apply (keys_seq_get d n n Hk). lia.
    + rewrite (IH (S a) _ n); [f_equal; lia| |lia].
      rewrite (dict_set_keys_old Nat.eqb); [exact Hk|].
      intros H. apply (keys_seq_get d n a Hk) in H. lia.
Qed.

Lemma combine_seq_keys {A : Type} (l : list A) (a : nat) :
  map fst (combine (seq a (length l)) l) = seq a (length l).
Proof.
  revert a. induction l as [|x l IH]; intros a; simpl; [reflexivity|].
  now rewrite IH.
Qed.

Lemma combine_seq_In {A : Type} (l : list A) (a i : nat) (x : A) :
  nth_error l i = Some x -> In (a + i, x) (combine (seq a (length l)) l).
Proof.
  revert a i. induction l as [|y l IH]; intros a i H.
  - destruct i; discriminate.
  - destruct i as [|i]; simpl in H.
    + inversion H; subst. left. f_equal. lia.
    + right. replace (a + S i) with (S a + i) by lia. now apply IH.
Qed.

Section RetrievalFacts.
Variables vec score : Type.
Variable encode : str -> vec.
Variable cosine_similarity : vec -> vec -> score.
Variable score_ltb : score -> score -> bool.

Local Abbreviation state := (RAGModel.state vec).
Local Abbreviation add_documents := (RAGModel.add_documents encode).
Local Abbreviation similarities := (RAGModel.similarities cosine_similarity).
Local Abbreviation sorted_desc := (RAGModel.sorted_desc score_ltb).
Local Abbreviation insert_desc := (RAGModel.insert_desc score_ltb).
Local Abbreviation sorted_docs :=
  (RAGModel.sorted_docs encode cosine_similarity score_ltb).
Local Abbreviation query := (RAGModel.query encode cosine_similarity score_ltb).
Local Abbreviation reachable := (RAGModel.reachable encode).
Local Abbreviation representative := RAGModel.representative.
Local Abbreviation document_embeddings := (@RAGModel.document_embeddings vec).
Local Abbreviation documents := (@RAGModel.documents vec).
Local Abbreviation stored_at := (@RetrievalSpec.stored_at vec score).
Local Abbreviation scored := (RetrievalSpec.scored encode cosine_similarity).
Local Abbreviation indexed := (@RetrievalSpec.indexed vec).
Local Abbreviation ranks_before := (RetrievalSpec.ranks_before score_ltb).

Lemma add_documents_embeddings (st : state) (docs : list Record) :
  document_embeddings (add_documents st docs) =
  set_all (fun c => encode (representative c)) (RAGModel.enumerate docs)
          (document_embeddings st).
Proof.
  unfold RAGModel.add_documents, set_all.
  generalize (RAGModel.enumerate docs) as l. intros l. revert st.
  induction l as [|[i c] l IH]; intros st; [reflexivity|].
  cbn [fold_left]. now rewrite IH.
Qed.

Lemma add_documents_documents (st : state) (docs : list Record) :
  documents (add_documents st docs) =
  set_all (fun c => c) (RAGModel.enumerate docs) (documents st).
Proof.
  unfold RAGModel.add_documents, set_all.
  generalize (RAGModel.enumerate docs) as l. intros l. revert st.
  induction l as [|[i c] l IH]; intros st; [reflexivity|].
  cbn [fold_left]. now rewrite IH.
Qed.

Lemma add_documents_indexed (st : state) (docs : list Record) (n : nat) :
  indexed st n -> indexed (add_documents st docs) (Nat.max n (length docs)).
Proof.
  intros [He Hd]. split.
  - rewrite add_documents_embeddings.
    apply (set_all_keys _ docs 0 _ n He). lia.
  - rewrite add_documents_documents.
    apply (set_all_keys _ docs 0 _ n Hd). lia.
Qed.

Lemma reachable_indexed (st : state) :
  reachable st -> exists n, indexed st n.
Proof.
  induction 1 as [|st docs _ [n IH]].
  - exists 0. split; reflexivity.
  - exists (Nat.max n (length docs)). now apply add_documents_indexed.
Qed.

Lemma representative_refines (content : Record) :
  representative content = representative_spec content.
Proof.
  unfold RAGModel.representative.
  induction content as [|[k v] r IH]; [reflexivity|].
  cbn [representative_spec filter].
  destruct v as [|c v]; [exact IH|].
  change (RAGModel.truthy (k, c :: v)) with true. cbv iota.
  cbn [map]. rewrite <- IH.
  assert (Hex : existsb (fun kv => negb (str_eqb (snd kv) [])) r = false <->
                filter RAGModel.truthy r = []).
  { clear. induction r as [|[k' v'] r IH]; simpl; [tauto|].
    destruct v' as [|c' v']; simpl; [exact IH|].
    split; discriminate. }
  destruct (filter RAGModel.truthy r) as [|kv l] eqn:F.
  - destruct Hex as [_ Hex]. rewrite (Hex eq_refl). reflexivity.
  - destruct (existsb _ r) eqn:E.
    + unfold RAGModel.fmt at 1. cbn [map PyStr.join fst snd].
      now rewrite <- !app_assoc.
    + destruct Hex as [Hex _]. discriminate (Hex eq_refl).
Qed.

Lemma add_documents_get
  (st : state) (docs : list Record) (i : nat) (content : Record) :
  nth_error docs i = Some content ->
  dict_get Nat.eqb i (document_embeddings (add_documents st docs)) =
    Some (encode (representative content)) /\
  dict_get Nat.eqb i (documents (add_documents st docs)) = Some content.
Proof.
  intros Hnth.
  assert (Hin : In (i, content) (RAGModel.enumerate docs)).
  { apply (combine_seq_In docs 0 i content Hnth). }
  assert (Hnd : NoDup (map fst (RAGModel.enumerate docs))).
  { unfold RAGModel.enumerate. rewrite combine_seq_keys. apply seq_NoDup. }
  split.
  - rewrite add_documents_embeddings.
    apply (set_all_get (fun c => encode (representative c)) _ _ i content Hnd Hin).
  - rewrite add_documents_documents.
    apply (set_all_get (fun c : Record => c) _ _ i content Hnd Hin).
Qed.

(** C6: [add_documents] stores, under the position of each record, the
    embedding of the string made of the pieces [key: value] of the
    entries with a non-empty value, in the order of the record and
    separated by one space, and stores the record itself, entries with
    empty values included. *)
Theorem C6_add_representative_string
  (st : state) (docs : list Record) (i : nat) (content : Record) :
  nth_error docs i = Some content ->
  representative content = representative_spec content /\
  dict_get Nat.eqb i (document_embeddings (add_documents st docs)) =
    Some (encode (representative_spec content)) /\
  dict_get Nat.eqb i (documents (add_documents st docs)) = Some content.
Proof.
  intros Hnth.
  destruct (add_documents_get st docs i content Hnth) as [He Hd].
  rewrite <- representative_refines. now repeat split.
Qed.

Lemma similarities_from (g : vec -> score) (l : dict nat vec)
  (acc : dict nat score) :
  NoDup (keys acc ++ keys l) ->
  fold_left (fun sims ie => dict_set Nat.eqb (fst ie) (g (snd ie)) sims) l acc =
  acc ++ map (fun ie => (fst ie, g (snd ie))) l.
Proof.
  revert acc. induction l as [|[i e] l IH]; intros acc Hnd.
  - simpl. now rewrite app_nil_r.
  - cbn [fold_left fst snd map].
    assert (Hnew : dict_get Nat.eqb i acc = None).
    { apply (dict_get_none_iff Nat.eqb nat_eqb_eq).
      intros Hin. simpl in Hnd. apply NoDup_remove_2 in Hnd.
      apply Hnd, in_or_app. now left. }
    rewrite (dict_set_new Nat.eqb _ _ _ Hnew), IH.
    + now rewrite <- app_assoc.
    + unfold keys in *. rewrite map_app, <- app_assoc. exact Hnd.
Qed.

Lemma similarities_scored (st : state) (question : str) (n : nat) :
  indexed st n ->
  similarities st (encode question) = scored st question.
Proof.
  intros [He _]. unfold RAGModel.similarities, scored.
  rewrite similarities_from; [reflexivity|].
  simpl. rewrite He. apply seq_NoDup.
Qed.

Lemma insert_desc_perm (x : nat * score) (l : list (nat * score)) :
  Permutation (insert_desc x l) (x :: l).
Proof.
  induction l as [|y l IH]; simpl; [reflexivity|].
  destruct (score_ltb (snd x) (snd y)); [|reflexivity].
  rewrite IH. apply perm_swap.
Qed.

Lemma sorted_desc_perm (l : list (nat * score)) :
  Permutation (sorted_desc l) l.
Proof.
  induction l as [|x l IH]; simpl; [reflexivity|].
  rewrite insert_desc_perm. now constructor.
Qed.

Lemma In_firstn {A : Type} (m : nat) (l : list A) (x : A) :
  In x (firstn m l) -> In x l.
Proof.
  revert m. induction l as [|y l IH]; intros [|m]; simpl; try tauto.
  intros [H|H]; [now left|right; now apply (IH m)].
Qed.

Lemma In_slice_to {A : Type} (l : list A) (k : Z) (x : A) :
  In x (RAGModel.slice_to l k) -> In x l.
Proof.
  unfold RAGModel.slice_to. destruct (k <? 0)%Z; apply In_firstn.
Qed.

Lemma collect_ok (st : state) (l : list (nat * score)) :
  (forall x, In x l -> dict_get Nat.eqb (fst x) (documents st) <> None) ->
  exists recs, RAGModel.collect st l = RAGModel.Ok recs /\
               Forall2 (stored_at st) recs l.
Proof.
  induction l as [|[i s] l IH]; intros H.
  - exists []. split; [reflexivity|constructor].
  - destruct IH as (recs & Hc & Hf).
    { intros x Hx. apply H. now right. }
    cbn [RAGModel.collect].
    destruct (dict_get Nat.eqb i (documents st)) as [r|] eqn:E.
    + rewrite Hc. exists (r :: recs). split; [reflexivity|].
      constructor; [exact E|exact Hf].
    + exfalso. apply (H (i, s)); [now left|exact E].
Qed.

(** In a reachable state every ranked item has its record, so the final
    loop raises no [KeyError]. *)
Lemma query_ok (st : state) (question : str) (top_k : Z) :
  reachable st ->
  exists recs,
    query st question top_k = RAGModel.Ok recs /\
    Forall2 (stored_at st) recs
            (RAGModel.slice_to (sorted_docs st question) top_k).
Proof.
  intros Hr. destruct (reachable_indexed st Hr) as [n Hidx].
  unfold RAGModel.query. apply collect_ok.
  intros x Hx. apply In_slice_to in Hx.
  unfold RAGModel.sorted_docs in Hx.
  rewrite (similarities_scored st question n Hidx) in Hx.
  apply (Permutation_in _ (sorted_desc_perm _)) in Hx.
  unfold scored in Hx. apply in_map_iff in Hx.
  destruct Hx as ([i e] & <- & Hin). cbn [fst].
  destruct Hidx as [He Hd].
  intros Hnone. apply (dict_get_none_iff Nat.eqb nat_eqb_eq) in Hnone.
  apply Hnone. rewrite Hd, <- He.
  change i with (fst (i, e)). now apply in_map.
Qed.

Lemma sorted_docs_length (st : state) (question : str) (n : nat) :
  indexed st n -> length (sorted_docs st question) = n.
Proof.
  intros Hidx. unfold RAGModel.sorted_docs.
  rewrite (similarities_scored st question n Hidx).
  rewrite (Permutation_length (sorted_desc_perm _)).
  unfold scored. rewrite length_map.
  destruct Hidx as [He _].
  rewrite <- (length_map fst). fold (keys (document_embeddings st)).
  rewrite He. apply length_seq.
Qed.

(** C2, amended: a negative [top_k] is not rejected.  The call returns,
    without error, the records of the ranking cut before its last
    [-top_k] items, which is none when fewer are stored. *)
Theorem C2_negative_top_k_truncates
  (st : state) (question : str) (top_k : Z) :
  reachable st ->
  (top_k < 0)%Z ->
  exists recs,
    query st question top_k = RAGModel.Ok recs /\
    length recs = Z.to_nat (Z.of_nat (length (documents st)) + top_k) /\
    Forall2 (stored_at st) recs
      (firstn (Z.to_nat (Z.of_nat (length (documents st)) + top_k))
              (sorted_docs st question)).
Proof.
  intros Hr Hk.
  destruct (query_ok st question top_k Hr) as (recs & Hq & Hf).
  destruct (reachable_indexed st Hr) as [n Hidx].
  assert (Hn : length (documents st) = n).
  { destruct Hidx as [_ Hd]. rewrite <- (length_map fst).
    fold (keys (documents st)). rewrite Hd. apply length_seq. }
  pose proof (sorted_docs_length st question n Hidx) as Hlen.
  unfold RAGModel.slice_to in Hf.
  apply Z.ltb_lt in Hk. rewrite Hk, Hlen in Hf. rewrite Hn.
  exists recs. split; [exact Hq|]. split; [|exact Hf].
  rewrite (Forall2_length Hf), length_firstn, Hlen. lia.
Qed.

Lemma keys_seq_ascending {V : Type} (l : dict nat V) (a n : nat) :
  keys l = seq a n ->
  StronglySorted (fun x y : nat * V => fst x < fst y) l.
Proof.
  revert a n. induction l as [|[i v] l IH]; intros a n Hk; [constructor|].
  destruct n as [|n]; [discriminate|]. simpl in Hk.
  inversion Hk as [[Hi Hl]]. constructor.
  - apply (IH (S a) n Hl).
  - apply Forall_forall. intros [j w] Hin. cbn [fst].
    assert (Hj : In j (seq (S a) n)).
    { rewrite <- Hl. change j with (fst (j, w)). now apply in_map. }
    apply in_seq in Hj. lia.
Qed.

Section Ranking.
(** [<] on scores is a strict weak order, as on finite floats. *)
Hypothesis ltb_asym :
  forall x y, score_ltb x y = true -> score_ltb y x = false.
Hypothesis ltb_negtrans :
  forall x y z, score_ltb x y = false -> score_ltb y z = false ->
                score_ltb x z = false.

Lemma insert_desc_sorted (x : nat * score) (l : list (nat * score)) :
  StronglySorted ranks_before l ->
  Forall (fun y => fst x < fst y) l ->
  StronglySorted ranks_before (insert_desc x l).
Proof.
  induction l as [|y l IH]; intros Hs Hx; simpl.
  - repeat constructor.
  - inversion Hs as [|? ? Hs' Hy]; subst.
    inversion Hx as [|? ? Hxy Hx']; subst.
    destruct (score_ltb (snd x) (snd y)) eqn:E.
    + constructor; [now apply IH|].
      apply (Permutation_Forall (Permutation_sym (insert_desc_perm x l))).
      constructor; [|exact Hy].
      split; [now apply ltb_asym|]. congruence.
    + constructor; [exact Hs|]. constructor; [now split|].
      rewrite Forall_forall in *. intros z Hz. split.
      * apply (ltb_negtrans _ (snd y)); [exact E|]. apply (Hy z Hz).
      * intros _. now apply Hx'.
Qed.

Lemma sorted_desc_sorted (l : list (nat * score)) :
  StronglySorted (fun x y => fst x < fst y) l ->
  StronglySorted ranks_before (sorted_desc l).
Proof.
  induction 1 as [|x l _ IH Hx]; simpl; [constructor|].
  apply insert_desc_sorted; [exact IH|].
  apply (Permutation_Forall (Permutation_sym (sorted_desc_perm l))).
  exact Hx.
Qed.

Lemma sorted_docs_ranked (st : state) (question : str) (n : nat) :
  indexed st n ->
  Permutation (sorted_docs st question) (scored st question) /\
  StronglySorted ranks_before (sorted_docs st question).
Proof.
  intros Hidx. unfold RAGModel.sorted_docs.
  rewrite (similarities_scored st question n Hidx). split.
  - apply sorted_desc_perm.
  - apply sorted_desc_sorted. apply (keys_seq_ascending _ 0 n).
    unfold scored, keys. rewrite map_map. cbn [fst].
    destruct Hidx as [He _]. exact He.
Qed.

(** C4: for a non-negative [top_k], [query] returns without error the
    records of the first [top_k] items of the ranking; the ranking
    holds every stored entry once, in descending order of similarity,
    entries of equal similarity by ascending index; the result has
    [min top_k n] records for [n] stored entries, hence all of them
    when [top_k] exceeds [n]. *)
Theorem C4_query_ranked_top_k
  (st : state) (question : str) (top_k : Z) :
  reachable st ->
  (0 <= top_k)%Z ->
  Permutation (sorted_docs st question) (scored st question) /\
  StronglySorted ranks_before (sorted_docs st question) /\
  exists recs,
    query st question top_k = RAGModel.Ok recs /\
    length recs = Nat.min (Z.to_nat top_k) (length (documents st)) /\
    Forall2 (stored_at st) recs
            (firstn (Z.to_nat top_k) (sorted_docs st question)).
Proof.
  intros Hr Hk.
  destruct (reachable_indexed st Hr) as [n Hidx].
  destruct (sorted_docs_ranked st question n Hidx) as [Hp Hs].
  split; [exact Hp|]. split; [exact Hs|].
  destruct (query_ok st question top_k Hr) as (recs & Hq & Hf).
  assert (Hn : length (documents st) = n).
  { destruct Hidx as [_ Hd]. rewrite <- (length_map fst).
    fold (keys (documents st)). rewrite Hd. apply length_seq. }
  pose proof (sorted_docs_length st question n Hidx) as Hlen.
  unfold RAGModel.slice_to in Hf.
  assert (Hge : (top_k <? 0)%Z = false) by (apply Z.ltb_ge; lia).
  rewrite Hge in Hf.
  exists recs. split; [exact Hq|]. split; [|exact Hf].
  rewrite (Forall2_length Hf), length_firstn, Hlen, Hn. reflexivity.
Qed.

(** What heads the ranking dominates: when the entry of index [i] is
    ranked first, every stored entry of smaller index scores strictly
    lower than it and no stored entry of larger index scores strictly
    higher. *)
Lemma first_ranked_dominates
  (st : state) (question : str) (n i j : nat) (s : score) (e : vec)
  (t : list (nat * score)) :
  indexed st n ->
  sorted_docs st question = (i, s) :: t ->
  dict_get Nat.eqb j (document_embeddings st) = Some e ->
  (j < i -> score_ltb (cosine_similarity (encode question) e) s = true) /\
  (i < j -> score_ltb s (cosine_similarity (encode question) e) = false).
Proof.
  intros Hidx Hranked Hget.
  destruct (sorted_docs_ranked st question n Hidx) as [Hp Hs].
  rewrite Hranked in Hp, Hs.
  assert (Hin : In (j, cosine_similarity (encode question) e) ((i, s) :: t)).
  { apply (Permutation_in _ (Permutation_sym Hp)).
    unfold scored. apply in_map_iff. exists (j, e). split; [reflexivity|].
    now apply (dict_get_In Nat.eqb nat_eqb_eq). }
  inversion Hs as [|? ? _ Hall]; subst.
  rewrite Forall_forall in Hall.
  assert (Hne : j <> i ->
                ranks_before (i, s) (j, cosine_similarity (encode question) e)).
  { intros Hji. destruct Hin as [Hin|Hin]; [inversion Hin; lia|].
    now apply Hall. }
  split; intros Hji; destruct (Hne ltac:(lia)) as [Hnlt Htie];
    cbn [fst snd] in *.
  - destruct (score_ltb (cosine_similarity (encode question) e) s) eqn:E;
      [reflexivity|]. specialize (Htie eq_refl). lia.
  - exact Hnlt.
Qed.

(** C8, amended: with [top_k >= 1], a question equal to the
    representative string of an added record ranks that record first
    when, among the stored entries, every one of smaller index scores
    strictly lower than the entry of the record and none of larger index
    scores strictly higher. *)
Theorem C8_self_query_ranks_first
  (st0 : state) (docs : list Record) (i : nat) (r : Record) (top_k : Z) :
  reachable st0 ->
  nth_error docs i = Some r ->
  (1 <= top_k)%Z ->
  (forall j e,
      j < i ->
      dict_get Nat.eqb j (document_embeddings (add_documents st0 docs)) = Some e ->
      score_ltb (cosine_similarity (encode (representative r)) e)
                (cosine_similarity (encode (representative r))
                                   (encode (representative r))) = true) ->
  (forall j e,
      i < j ->
      dict_get Nat.eqb j (document_embeddings (add_documents st0 docs)) = Some e ->
      score_ltb (cosine_similarity (encode (representative r))
                                   (encode (representative r)))
                (cosine_similarity (encode (representative r)) e) = false) ->
  exists rest,
    query (add_documents st0 docs) (representative r) top_k =
    RAGModel.Ok (r :: rest).
Proof.
  intros Hr0 Hnth Hk Hlow Hhigh.
  set (st := add_documents st0 docs) in *.
  set (q := encode (representative r)) in *.
  assert (Hr : reachable st) by (now constructor).
  destruct (reachable_indexed st Hr) as [n Hidx].
  destruct (sorted_docs_ranked st (representative r) n Hidx) as [Hp Hs].
  destruct (add_documents_get st0 docs i r Hnth) as [Hge Hgd].
  fold st in Hge, Hgd. fold q in Hge.
  destruct (query_ok st (representative r) top_k Hr) as (recs & Hq & Hf).
  assert (Hnd : NoDup (keys (document_embeddings st))).
  { destruct Hidx as [He _]. rewrite He. apply seq_NoDup. }
  assert (Hi : In (i, cosine_similarity q q) (sorted_docs st (representative r))).
  { apply (Permutation_in _ (Permutation_sym Hp)).
    unfold scored. apply in_map_iff. exists (i, q). split; [reflexivity|].
    now apply (dict_get_In Nat.eqb nat_eqb_eq). }
  destruct (sorted_docs st (representative r)) as [|h t] eqn:Hranked;
    [destruct Hi|].
  assert (Hh : h = (i, cosine_similarity q q)).
  { destruct Hi as [Hi|Hi]; [exact Hi|].
    inversion Hs as [|? ? _ Hall]; subst.
    rewrite Forall_forall in Hall.
    destruct (Hall _ Hi) as [Hnlt Htie]. cbn [fst snd] in *.
    assert (Hin : In h (scored st (representative r))).
    { apply (Permutation_in _ Hp). now left. }
    unfold scored in Hin. apply in_map_iff in Hin.
    destruct Hin as ([j e] & <- & Hje). cbn [fst snd] in *.
    fold q in Hnlt, Htie.
    apply (dict_get_NoDup Nat.eqb nat_eqb_eq _ _ _ Hnd) in Hje.
    destruct (Nat.lt_trichotomy j i) as [Hji|[Hji|Hji]].
    - rewrite (Hlow j e Hji Hje) in Hnlt. discriminate.
    - subst j. rewrite Hge in Hje. now inversion Hje.
    - specialize (Htie (Hhigh j e Hji Hje)). lia. }
  unfold RAGModel.slice_to in Hf.
  assert (Hge0 : (top_k <? 0)%Z = false) by (apply Z.ltb_ge; lia).
  rewrite Hge0 in Hf.
  destruct (Z.to_nat top_k) as [|m] eqn:Hm; [lia|].
  cbn [firstn] in Hf. inversion Hf as [|r' ? recs' ? Hst Hrest]; subst.
  unfold stored_at in Hst. cbn [fst] in Hst.
  rewrite Hgd in Hst. inversion Hst; subst.
  now exists recs'.
Qed.
End Ranking.
End RetrievalFacts.


(** ** The stub vectorizer *)

Lemma Stub_ltb_asym (x y : Z) : Stub.score_ltb x y = true -> Stub.score_ltb y x = false.
Proof. unfold Stub.score_ltb. intros H. apply Z.ltb_lt in H. apply Z.ltb_ge. lia. Qed.

Lemma Stub_ltb_negtrans (x y z : Z) :
  Stub.score_ltb x y = false -> Stub.score_ltb y z = false -> Stub.score_ltb x z = false.
Proof.
  unfold Stub.score_ltb. intros H1 H2.
  apply Z.ltb_ge in H1, H2. apply Z.ltb_ge. lia.
Qed.

(** C2, as stated, fails: with two stored records and [top_k = -1] the
    call returns normally, with the first record of the ranking. *)
Lemma C2_counterexample_negative_top_k :
  Stub.query (Stub.add_documents Stub.init [Stub.dell; Stub.hp])
             (lit "Name: HP") (-1) =
  RAGModel.Ok [Stub.hp].
Proof. vm_compute. reflexivity. Qed.

Lemma C2_witness :
  exists recs,
    Stub.query (Stub.add_documents Stub.init [Stub.dell; Stub.hp])
               (lit "Name: HP") (-1) = RAGModel.Ok recs /\
    length recs = 1.
Proof.
  destruct (C2_negative_top_k_truncates str Z Stub.encode
              Stub.cosine_similarity Stub.score_ltb
              (Stub.add_documents Stub.init [Stub.dell; Stub.hp])
              (lit "Name: HP") (-1)%Z)
    as (recs & Hq & Hlen & _).
  - apply RAGModel.reach_add. apply RAGModel.reach_init.
  - reflexivity.
  - exists recs. split; [exact Hq|exact Hlen].
Defined.

Lemma C4_witness :
  exists recs,
    Stub.query (Stub.add_documents Stub.init [Stub.dell; Stub.hp])
               (lit "Name: HP") 5 = RAGModel.Ok recs /\
    length recs = 2.
Proof.
  destruct (C4_query_ranked_top_k str Z Stub.encode
              Stub.cosine_similarity Stub.score_ltb
              Stub_ltb_asym Stub_ltb_negtrans
              (Stub.add_documents Stub.init [Stub.dell; Stub.hp])
              (lit "Name: HP") 5%Z)
    as (_ & _ & recs & Hq & Hlen & _).
  - apply RAGModel.reach_add. apply RAGModel.reach_init.
  - lia.
  - exists recs. split; [exact Hq|exact Hlen].
Defined.

Lemma C6_witness :
  dict_get Nat.eqb 1
    (RAGModel.document_embeddings
       (Stub.add_documents Stub.init [Stub.plain; Stub.noted])) =
    Some (lit "a: b") /\
  dict_get Nat.eqb 1
    (RAGModel.documents
       (Stub.add_documents Stub.init [Stub.plain; Stub.noted])) =
    Some Stub.noted.
Proof.
  apply (C6_add_representative_string str Stub.encode Stub.init
           [Stub.plain; Stub.noted] 1 Stub.noted).
  reflexivity.
Defined.

(** C8, as stated, fails when an entry of smaller index has the same
    representative string: the records [plain] and [noted] differ by an
    entry with an empty value, their strings and hence their embeddings are
    equal, and the query made of the string of [noted], stored second,
    returns [plain], stored first.  The tie does not depend on the stub:
    an encoder maps equal strings to equal vectors. *)
Lemma C8_counterexample_equal_strings :
  nth_error [Stub.plain; Stub.noted] 1 = Some Stub.noted /\
  RAGModel.representative Stub.noted = RAGModel.representative Stub.plain /\
  Stub.noted <> Stub.plain /\
  Stub.query (Stub.add_documents Stub.init [Stub.plain; Stub.noted])
             (RAGModel.representative Stub.noted) 1 =
  RAGModel.Ok [Stub.plain].
Proof. repeat split; try reflexivity. discriminate. Qed.

Lemma C8_witness :
  exists rest,
    Stub.query (Stub.add_documents Stub.init [Stub.dell; Stub.hp; Stub.plain])
               (RAGModel.representative Stub.hp) 1 =
    RAGModel.Ok (Stub.hp :: rest).
Proof.
  apply (C8_self_query_ranks_first str Z Stub.encode
           Stub.cosine_similarity Stub.score_ltb
           Stub_ltb_asym Stub_ltb_negtrans
           Stub.init [Stub.dell; Stub.hp; Stub.plain] 1 Stub.hp 1%Z).
  - apply RAGModel.reach_init.
  - reflexivity.
  - lia.
  - intros j e Hj Hget. assert (j = 0) by lia. subst j.
    vm_compute in Hget. inversion Hget; subst. reflexivity.
  - intros j e Hj Hget.
    destruct j as [|[|[|j]]]; [lia|lia| |discriminate Hget].
    vm_compute in Hget. inversion Hget; subst. reflexivity.
Defined.

(** ** The JSON artifact *)

Section JsonFacts.
Import Json.
Local Open Scope N_scope.

Lemma hexval_hexdigit (d : N) : d < 16 -> hexval (hexdigit d) = Some d.
Proof.
  intros H.
  assert (Hd : d = 0 \/ d = 1 \/ d = 2 \/ d = 3 \/ d = 4 \/ d = 5 \/ d = 6 \/
               d = 7 \/ d = 8 \/ d = 9 \/ d = 10 \/ d = 11 \/ d = 12 \/
               d = 13 \/ d = 14 \/ d = 15) by lia.
  repeat (destruct Hd as [->|Hd]; [reflexivity|]). subst d. reflexivity.
Qed.

Lemma decode_hex4 (n : N) :
  n < 65536 ->
  decode_uXXXX (hexdigit (n / 4096 mod 16)) (hexdigit (n / 256 mod 16))
               (hexdigit (n / 16 mod 16)) (hexdigit (n mod 16)) = Some n.
Proof.
  intros H. unfold decode_uXXXX.
  rewrite !hexval_hexdigit by (apply N.mod_lt; discriminate).
  f_equal. 
  pose proof (N.div_mod n 16). pose proof (N.div_mod (n / 16) 16).
  pose proof (N.div_mod (n / 256) 16).
  assert (n / 256 = n / 16 / 16) by (rewrite N.Div0.div_div; reflexivity).
  assert (n / 4096 = n / 256 / 16) by (rewrite N.Div0.div_div; reflexivity).
  assert (n / 4096 < 16) by (apply N.Div0.div_lt_upper_bound; lia).
  rewrite (N.mod_small (n / 4096) 16) by assumption.
  lia.
Qed.

Lemma land_shifted_low (a b : N) : b < 1024 -> N.land (a * 1024) b = 0.
Proof.
  intros Hb. apply N.bits_inj_0. intros i. rewrite N.land_spec.
  destruct (N.lt_ge_cases i 10) as [Hi|Hi].
  - change 1024 with (2 ^ 10). now rewrite N.mul_pow2_bits_low.
  - assert (Hbit : N.testbit b i = false).
    { destruct (N.eq_dec b 0) as [->|Hne]; [apply N.bits_0|].
      apply N.bits_above_log2.
      apply N.lt_le_trans with 10; [|exact Hi].
      apply N.log2_lt_pow2; [lia|exact Hb]. }
    rewrite Hbit. apply andb_false_r.
Qed.

Lemma lor_shifted_low (a b : N) :
  b < 1024 -> N.lor (a * 1024) b = a * 1024 + b.
Proof.
  intros Hb. pose proof (land_shifted_low a b Hb) as H0.
  rewrite <- (N.lxor_lor _ _ H0). symmetry. now apply N.add_nocarry_lxor.
Qed.

(** The two halves of the escape of a character above 0xFFFF *)
Lemma surrogate_high (n : N) :
  n < 1048576 ->
  N.lor 55296 (N.land (N.shiftr n 10) 1023) = 55296 + n / 1024.
Proof.
  intros Hn. rewrite N.shiftr_div_pow2. change (2 ^ 10) with 1024.
  change 1023 with (N.ones 10). rewrite N.land_ones. change (2 ^ 10) with 1024.
  assert (Hq : n / 1024 < 1024) by (apply N.Div0.div_lt_upper_bound; lia).
  rewrite (N.mod_small _ _ Hq).
  change 55296 with (54 * 1024). now apply lor_shifted_low.
Qed.

Lemma surrogate_low (n : N) :
  N.lor 56320 (N.land n 1023) = 56320 + n mod 1024.
Proof.
  change 1023 with (N.ones 10). rewrite N.land_ones. change (2 ^ 10) with 1024.
  change 56320 with (55 * 1024). apply lor_shifted_low.
  apply N.mod_lt. discriminate.
Qed.

Lemma surrogate_combine (q r : N) :
  r < 1024 ->
  65536 + N.lor (N.shiftl (55296 + q - 55296) 10) (56320 + r - 56320) =
  65536 + (q * 1024 + r).
Proof.
  intros Hr. f_equal.
  rewrite (N.add_comm 55296), N.add_sub, (N.add_comm 56320), N.add_sub.
  rewrite N.shiftl_mul_pow2. change (2 ^ 10) with 1024.
  now apply lor_shifted_low.
Qed.

Lemma scanstring_u_escape (acc : str) (uni : N) (t : str) :
  uni < 65536 ->
  (is_high uni = true -> low_escape_follows t = false) ->
  scanstring acc (u_escape uni ++ t) = scanstring (uni :: acc) t.
Proof.
  intros Hu Hfollow. unfold u_escape, hex4.
  cbn [app scanstring].
  change (backslash =? quote) with false.
  change (backslash =? backslash) with true.
  change (letter_u =? letter_u) with true. cbv iota.
  rewrite (decode_hex4 uni Hu).
  destruct (is_high uni); [|reflexivity].
  specialize (Hfollow eq_refl). unfold low_escape_follows in Hfollow.
  destruct t as [|b t1]; [reflexivity|].
  destruct (b =? backslash); [|reflexivity].
  destruct t1 as [|u t2]; [reflexivity|].
  destruct (u =? letter_u); [|reflexivity].
  destruct t2 as [|k1 [|k2 [|k3 [|k4 t6]]]]; try discriminate.
  destruct (decode_uXXXX k1 k2 k3 k4); [|discriminate].
  now rewrite Hfollow.
Qed.

Lemma scanstring_pair (acc : str) (q r : N) (t : str) :
  q < 1024 -> r < 1024 ->
  scanstring acc (u_escape (55296 + q) ++ u_escape (56320 + r) ++ t) =
  scanstring (65536 + (q * 1024 + r) :: acc) t.
Proof.
  intros Hq Hr.
  unfold u_escape, hex4. cbn [app scanstring].
  change (backslash =? quote) with false.
  change (backslash =? backslash) with true.
  change (letter_u =? letter_u) with true. cbv iota.
  rewrite (decode_hex4 (55296 + q)) by lia.
  rewrite (decode_hex4 (56320 + r)) by lia.
  assert (Hh : is_high (55296 + q) = true).
  { unfold is_high. apply andb_true_iff. split; apply N.leb_le; lia. }
  assert (Hl : is_low (56320 + r) = true).
  { unfold is_low. apply andb_true_iff. split; apply N.leb_le; lia. }
  rewrite Hh, Hl. now rewrite surrogate_combine.
Qed.

(** Quotient and remainder of the offset of a character above 0xFFFF *)
Lemma astral_split (c : char) :
  65536 <= c -> c < 1114112 ->
  (c - 65536) / 1024 < 1024 /\ (c - 65536) mod 1024 < 1024 /\
  65536 + ((c - 65536) / 1024 * 1024 + (c - 65536) mod 1024) = c.
Proof.
  intros Hlo Hhi. split; [|split].
  - apply N.Div0.div_lt_upper_bound. lia.
  - apply N.mod_lt. discriminate.
  - pose proof (N.div_mod (c - 65536) 1024). lia.
Qed.

Lemma scanstring_escape_char (acc : str) (c : char) (t : str) :
  c < 1114112 ->
  (is_high c = true -> low_escape_follows t = false) ->
  scanstring acc (escape_char c ++ t) = scanstring (c :: acc) t.
Proof.
  intros Hc Hfollow. unfold escape_char.
  destruct (c =? quote) eqn:E1; [apply N.eqb_eq in E1; subst c; reflexivity|].
  destruct (c =? backslash) eqn:E2; [apply N.eqb_eq in E2; subst c; reflexivity|].
  destruct (c =? 10) eqn:E3; [apply N.eqb_eq in E3; subst c; reflexivity|].
  destruct (c =? 13) eqn:E4; [apply N.eqb_eq in E4; subst c; reflexivity|].
  destruct (c =? 9) eqn:E5; [apply N.eqb_eq in E5; subst c; reflexivity|].
  destruct (c =? 8) eqn:E6; [apply N.eqb_eq in E6; subst c; reflexivity|].
  destruct (c =? 12) eqn:E7; [apply N.eqb_eq in E7; subst c; reflexivity|].
  destruct ((32 <=? c) && (c <=? 126)) eqn:E8.
  - apply andb_true_iff in E8. destruct E8 as [Hlo _]. apply N.leb_le in Hlo.
    cbn [app scanstring]. rewrite E1, E2.
    assert (H32 : (c <? 32) = false) by (apply N.ltb_ge; exact Hlo).
    now rewrite H32.
  - destruct (c <? 65536) eqn:E9.
    + apply N.ltb_lt in E9. now apply scanstring_u_escape.
    + apply N.ltb_ge in E9. cbv zeta.
      rewrite surrogate_high, surrogate_low by lia.
      destruct (astral_split c E9 Hc) as (Hq & Hr & Heq).
      rewrite <- app_assoc, scanstring_pair by assumption.
      now rewrite Heq.
Qed.

(** The escape of a character other than a low surrogate does not look
    like a low surrogate escape. *)
Lemma escape_char_not_low (c : char) (t : str) :
  c < 1114112 -> is_low c = false ->
  low_escape_follows (escape_char c ++ t) = false.
Proof.
  intros Hc Hlow. unfold escape_char.
  destruct (c =? quote) eqn:E1; [reflexivity|].
  destruct (c =? backslash) eqn:E2; [reflexivity|].
  destruct (c =? 10) eqn:E3; [reflexivity|].
  destruct (c =? 13) eqn:E4; [reflexivity|].
  destruct (c =? 9) eqn:E5; [reflexivity|].
  destruct (c =? 8) eqn:E6; [reflexivity|].
  destruct (c =? 12) eqn:E7; [reflexivity|].
  destruct ((32 <=? c) && (c <=? 126)) eqn:E8.
  - cbn [app low_escape_follows]. now rewrite E2.
  - destruct (c <? 65536) eqn:E9.
    + apply N.ltb_lt in E9. unfold u_escape, hex4.
      cbn [app low_escape_follows].
      change (backslash =? backslash) with true.
      change (letter_u =? letter_u) with true. cbv iota.
      now rewrite (decode_hex4 c E9).
    + apply N.ltb_ge in E9. cbv zeta.
      rewrite surrogate_high by lia.
      destruct (astral_split c E9 Hc) as (Hq & _ & _).
      revert Hq. generalize ((c - 65536) / 1024). intros q Hq.
      unfold u_escape at 1. unfold hex4.
      cbn [app low_escape_follows].
      change (backslash =? backslash) with true.
      change (letter_u =? letter_u) with true. cbv iota.
      rewrite (decode_hex4 (55296 + q)) by lia.
      unfold is_low. apply andb_false_iff. left. apply N.leb_gt. lia.
Qed.

Lemma scanstring_escaped (s acc rest : str) :
  json_safe s ->
  scanstring acc (flat_map escape_char s ++ quote :: rest) =
  Ok (rev acc ++ s, rest).
Proof.
  revert acc. induction s as [|c s IH]; intros acc Hs.
  - cbn. now rewrite app_nil_r.
  - destruct Hs as (Hc & Hpair & Hs).
    cbn [flat_map]. rewrite <- app_assoc.
    rewrite scanstring_escape_char; [|exact Hc|].
    + rewrite IH by exact Hs. cbn [rev]. now rewrite <- app_assoc.
    + intros Hh. specialize (Hpair Hh).
      destruct s as [|c' s']; [reflexivity|].
      cbn [flat_map]. rewrite <- app_assoc.
      destruct Hs as (Hc' & _). now apply escape_char_not_low.
Qed.

Lemma scanstring_encoded (s rest : str) :
  json_safe s ->
  scanstring [] (tl (encode_basestring_ascii s) ++ rest) = Ok (s, rest).
Proof.
  intros Hs. unfold encode_basestring_ascii. cbn [tl].
  rewrite <- app_assoc. cbn [app]. now rewrite scanstring_escaped.
Qed.

Lemma skip_ws_spaces (n : nat) (t : str) :
  skip_ws (repeat space n ++ t) = skip_ws t.
Proof. induction n as [|n IH]; [reflexivity|exact IH]. Qed.

Lemma skip_ws_newline_indent (level : nat) (t : str) :
  skip_ws (newline_indent level ++ t) = skip_ws t.
Proof. unfold newline_indent. cbn [app skip_ws]. apply skip_ws_spaces. Qed.

Lemma scan_once_string (fuel : nat) (s rest : str) :
  json_safe s ->
  scan_once (S fuel) (encode_basestring_ascii s ++ rest) = Ok (JString s, rest).
Proof.
  intros Hs. unfold encode_basestring_ascii. cbn [app scan_once].
  change (quote =? quote) with true. cbv iota.
  rewrite <- app_assoc. cbn [app]. now rewrite scanstring_escaped.
Qed.

Lemma dict_of_pairs_from (l acc : dict str json) :
  NoDup (keys acc ++ keys l) ->
  fold_left (fun d kv => dict_set str_eqb (fst kv) (snd kv) d) l acc = acc ++ l.
Proof.
  revert acc. induction l as [|[k v] l IH]; intros acc Hnd.
  - simpl. now rewrite app_nil_r.
  - cbn [fold_left fst snd].
    assert (Hnew : dict_get str_eqb k acc = None).
    { apply (dict_get_none_iff str_eqb str_eqb_eq).
      intros Hin. simpl in Hnd. apply NoDup_remove_2 in Hnd.
      apply Hnd, in_or_app. now left. }
    rewrite (dict_set_new str_eqb _ _ _ Hnew), IH.
    + now rewrite <- app_assoc.
    + unfold keys in *. rewrite map_app, <- app_assoc. exact Hnd.
Qed.

Lemma dict_of_pairs_record (r : Record) :
  NoDup (keys r) ->
  dict_of_pairs (map (fun kv => (fst kv, JString (snd kv))) r) =
  map (fun kv => (fst kv, JString (snd kv))) r.
Proof.
  intros Hnd. unfold dict_of_pairs. rewrite dict_of_pairs_from; [reflexivity|].
  simpl. unfold keys in *. rewrite map_map. exact Hnd.
Qed.

(** One turn of the loop of [JSONObject], ending the object or going on
    to the next key *)
Lemma object_loop_last (scan : str -> outcome (json * str)) (fuel : nat)
  (pairs : list (str * json)) (s key s1 s2 s3 s4 : str) (value : json) :
  scanstring [] s = Ok (key, s1) ->
  skip_ws s1 = colon :: s2 ->
  scan (skip_ws s2) = Ok (value, s3) ->
  skip_ws s3 = rbrace :: s4 ->
  object_loop scan (S fuel) pairs s =
  Ok (JObject (dict_of_pairs (rev ((key, value) :: pairs))), s4).
Proof.
  intros H1 H2 H3 H4. cbn [object_loop]. rewrite H1, H2.
  change (colon =? colon) with true. cbv iota. rewrite H3, H4.
  reflexivity.
Qed.

Lemma object_loop_next (scan : str -> outcome (json * str)) (fuel : nat)
  (pairs : list (str * json)) (s key s1 s2 s3 s4 s5 : str) (value : json) :
  scanstring [] s = Ok (key, s1) ->
  skip_ws s1 = colon :: s2 ->
  scan (skip_ws s2) = Ok (value, s3) ->
  skip_ws s3 = comma :: s4 ->
  skip_ws s4 = quote :: s5 ->
  object_loop scan (S fuel) pairs s =
  object_loop scan fuel ((key, value) :: pairs) s5.
Proof.
  intros H1 H2 H3 H4 H5. cbn [object_loop]. rewrite H1, H2.
  change (colon =? colon) with true. cbv iota. rewrite H3, H4.
  change (comma =? rbrace) with false. change (comma =? comma) with true.
  cbv iota. rewrite H5. reflexivity.
Qed.

Lemma array_loop_last (scan : str -> outcome (json * str)) (fuel : nat)
  (values : list json) (s s1 s2 : str) (value : json) :
  scan s = Ok (value, s1) ->
  skip_ws s1 = rbracket :: s2 ->
  array_loop scan (S fuel) values s = Ok (JArray (rev (value :: values)), s2).
Proof.
  intros H1 H2. cbn [array_loop]. rewrite H1, H2. reflexivity.
Qed.

Lemma array_loop_next (scan : str -> outcome (json * str)) (fuel : nat)
  (values : list json) (s s1 s2 : str) (value : json) :
  scan s = Ok (value, s1) ->
  skip_ws s1 = comma :: s2 ->
  array_loop scan (S fuel) values s =
  array_loop scan fuel (value :: values) (skip_ws s2).
Proof.
  intros H1 H2. cbn [array_loop]. rewrite H1, H2. reflexivity.
Qed.

Lemma encoded_head (s : str) :
  encode_basestring_ascii s = quote :: tl (encode_basestring_ascii s).
Proof. reflexivity. Qed.

Lemma skip_ws_space_encoded (v t : str) :
  skip_ws (space :: encode_basestring_ascii v ++ t) =
  encode_basestring_ascii v ++ t.
Proof. reflexivity. Qed.

Lemma skip_ws_indent_encoded (level : nat) (k t : str) :
  skip_ws (newline_indent level ++ encode_basestring_ascii k ++ t) =
  quote :: tl (encode_basestring_ascii k) ++ t.
Proof. rewrite skip_ws_newline_indent. reflexivity. Qed.

Lemma skip_ws_indent_close (level : nat) (c : char) (t : str) :
  is_ws c = false ->
  skip_ws (newline_indent level ++ c :: t) = c :: t.
Proof.
  intros Hc. rewrite skip_ws_newline_indent. cbn [skip_ws]. now rewrite Hc.
Qed.

(** The loop of [JSONObject] on the items of a record, entered after the
    opening quote of the first key. *)
Lemma object_loop_items (f level level0 : nat) (more : Record) :
  forall (fuel : nat) (k v : str) (pairs : list (str * json)) (rest : str),
    (length more < fuel)%nat ->
    json_safe k -> json_safe v ->
    Forall (fun kv => json_safe (fst kv) /\ json_safe (snd kv)) more ->
    object_loop (scan_once (S f)) fuel pairs
      (tl (encode_basestring_ascii k)
       ++ colon :: space :: encode_basestring_ascii v
       ++ dict_items level false more
       ++ newline_indent level0 ++ rbrace :: rest) =
    Ok (JObject (dict_of_pairs
                   (rev pairs ++ (k, JString v)
                    :: map (fun kv => (fst kv, JString (snd kv))) more)),
        rest).
Proof.
  induction more as [|[k' v'] more IH];
    intros fuel k v pairs rest Hfuel Hk Hv Hmore;
    (destruct fuel as [|fuel]; [simpl in Hfuel; lia|]).
  - cbn [dict_items app map].
    apply (object_loop_last _ fuel pairs _ k
             (colon :: space :: encode_basestring_ascii v
              ++ newline_indent level0 ++ rbrace :: rest)
             (space :: encode_basestring_ascii v
              ++ newline_indent level0 ++ rbrace :: rest)
             (newline_indent level0 ++ rbrace :: rest) rest (JString v)).
    + apply scanstring_encoded. exact Hk.
    + reflexivity.
    + rewrite skip_ws_space_encoded. apply scan_once_string. exact Hv.
    + now apply skip_ws_indent_close.
  - inversion Hmore as [|? ? [Hk' Hv'] Hmore']; subst. cbn [fst snd] in *.
    cbn [dict_items map fst snd]. unfold item_separator.
    rewrite <- !app_assoc. cbn [app].
    set (tail := colon :: space :: encode_basestring_ascii v'
                 ++ dict_items level false more
                 ++ newline_indent level0 ++ rbrace :: rest).
    rewrite (object_loop_next _ fuel pairs _ k
               (colon :: space :: encode_basestring_ascii v
                ++ comma :: newline_indent level
                ++ encode_basestring_ascii k' ++ tail)
               (space :: encode_basestring_ascii v
                ++ comma :: newline_indent level
                ++ encode_basestring_ascii k' ++ tail)
               (comma :: newline_indent level
                ++ encode_basestring_ascii k' ++ tail)
               (newline_indent level ++ encode_basestring_ascii k' ++ tail)
               (tl (encode_basestring_ascii k') ++ tail)
               (JString v)).
    + unfold tail.
      rewrite (IH fuel k' v' ((k, JString v) :: pairs) rest);
        [|simpl in Hfuel; lia|assumption..].
      cbn [rev]. rewrite <- app_assoc. reflexivity.
    + apply scanstring_encoded. exact Hk.
    + reflexivity.
    + rewrite skip_ws_space_encoded. apply scan_once_string. exact Hv.
    + reflexivity.
    + apply skip_ws_indent_encoded.
Qed.

Lemma scan_once_record (f level : nat) (r : Record) (rest : str) :
  record_safe r ->
  (length r <= S f)%nat ->
  scan_once (S (S f)) (iterencode_dict r level ++ rest) =
  Ok (record_value r, rest).
Proof.
  intros [Hnd Hsafe] Hlen. destruct r as [|[k v] more]; [reflexivity|].
  inversion Hsafe as [|? ? [Hk Hv] Hmore]; subst. cbn [fst snd] in *.
  unfold iterencode_dict. cbn [dict_items app].
  rewrite <- ?app_assoc. cbn [app].
  change (scan_once (S (S f)) (lbrace :: ?t))
    with (JSONObject (scan_once (S f)) (S f) t).
  unfold JSONObject. rewrite skip_ws_indent_encoded.
  change (quote =? rbrace) with false. change (quote =? quote) with true.
  cbv iota.
  rewrite <- app_assoc. cbn [app].
  rewrite <- ?app_assoc.
  rewrite (object_loop_items f (S level) level more (S f) k v [] rest);
    [|simpl in Hlen; lia|assumption..].
  unfold record_value. cbn [rev app].
  f_equal. f_equal. f_equal.
  apply (dict_of_pairs_record ((k, v) :: more) Hnd).
Qed.

Lemma skip_ws_indent_dict (level level' : nat) (r : Record) (t : str) :
  skip_ws (newline_indent level ++ iterencode_dict r level' ++ t) =
  iterencode_dict r level' ++ t.
Proof.
  rewrite skip_ws_newline_indent. destruct r as [|[k v] r]; reflexivity.
Qed.

Lemma iterencode_dict_head (r : Record) (level : nat) (t : str) :
  exists t', iterencode_dict r level ++ t = lbrace :: t'.
Proof. destruct r as [|[k v] r]; eexists; reflexivity. Qed.

(** The loop of [JSONArray] on the encoded records *)
Lemma array_loop_items (f level level0 : nat) (more : list Record) :
  forall (fuel : nat) (r : Record) (values : list json) (rest : str),
    (length more < fuel)%nat ->
    Forall record_safe (r :: more) ->
    Forall (fun r' : Record => (length r' <= S f)%nat) (r :: more) ->
    array_loop (scan_once (S (S f))) fuel values
      (iterencode_dict r level
       ++ list_items level false more
       ++ newline_indent level0 ++ rbracket :: rest) =
    Ok (JArray (rev values ++ record_value r :: map record_value more), rest).
Proof.
  induction more as [|r' more IH];
    intros fuel r values rest Hfuel Hsafe Hlen;
    (destruct fuel as [|fuel]; [simpl in Hfuel; lia|]);
    inversion Hsafe as [|? ? Hr Hsafe']; subst;
    inversion Hlen as [|? ? Hlr Hlen']; subst.
  - cbn [list_items app map].
    apply (array_loop_last _ fuel values _
             (newline_indent level0 ++ rbracket :: rest) rest
             (record_value r)).
    + now apply scan_once_record.
    + now apply skip_ws_indent_close.
  - cbn [list_items map]. unfold item_separator.
    rewrite <- ?app_assoc. cbn [app].
    set (tail := list_items level false more
                 ++ newline_indent level0 ++ rbracket :: rest).
    rewrite (array_loop_next _ fuel values _
               (comma :: newline_indent level
                ++ iterencode_dict r' level ++ tail)
               (newline_indent level ++ iterencode_dict r' level ++ tail)
               (record_value r)).
    + rewrite skip_ws_indent_dict. unfold tail.
      rewrite (IH fuel r' (record_value r :: values) rest);
        [|simpl in Hfuel; lia|assumption..].
      cbn [rev]. rewrite <- app_assoc. reflexivity.
    + now apply scan_once_record.
    + reflexivity.
Qed.

Lemma scan_once_records (f : nat) (data : list Record) (rest : str) :
  Forall record_safe data ->
  Forall (fun r : Record => (length r <= S f)%nat) data ->
  (length data <= S (S f))%nat ->
  scan_once (S (S (S f))) (iterencode_list data 0 ++ rest) =
  Ok (records_value data, rest).
Proof.
  intros Hsafe Hlen Hn. destruct data as [|r more]; [reflexivity|].
  unfold iterencode_list. cbn [list_items app].
  rewrite <- ?app_assoc. cbn [app].
  change (scan_once (S (S (S f))) (lbracket :: ?t))
    with (JSONArray (scan_once (S (S f))) (S (S f)) t).
  unfold JSONArray. rewrite skip_ws_indent_dict.
  destruct (iterencode_dict_head r 1
              (list_items 1 false more ++ newline_indent 0 ++ rbracket :: rest))
    as [t' Ht'].
  rewrite <- ?app_assoc. rewrite Ht'.
  change (lbrace =? rbracket) with false. cbv iota. rewrite <- Ht'.
  cbn [app].
  apply (array_loop_items f 1 0 more (S (S f)) r [] rest);
    [simpl in Hn; lia|assumption..].
Qed.

Lemma dict_items_length (level : nat) (r : Record) (first : bool) :
  (length r <= length (dict_items level first r))%nat.
Proof.
  revert first. induction r as [|[k v] r IH]; intros first; [apply Nat.le_refl|].
  cbn [dict_items]. rewrite !length_app. specialize (IH false).
  unfold encode_basestring_ascii at 1. cbn [length].
  lia.
Qed.

Lemma iterencode_dict_length (r : Record) (level : nat) :
  (length r < length (iterencode_dict r level))%nat.
Proof.
  destruct r as [|kv r]; [cbn; lia|].
  unfold iterencode_dict. cbn [length]. rewrite !length_app.
  pose proof (dict_items_length (S level) (kv :: r) true) as H.
  cbn [length] in H. lia.
Qed.

Lemma list_items_length (level : nat) (data : list Record) (first : bool) :
  (length data <= length (list_items level first data))%nat /\
  Forall (fun r : Record =>
            (length r < length (list_items level first data))%nat) data.
Proof.
  revert first. induction data as [|r data IH]; intros first.
  - split; [apply Nat.le_refl|constructor].
  - destruct (IH false) as [IH1 IH2].
    pose proof (iterencode_dict_length r level) as Hr.
    cbn [list_items]. rewrite !length_app. split.
    + cbn [length]. lia.
    + constructor; [lia|].
      revert IH2. apply Forall_impl. intros r' Hr'. lia.
Qed.

Lemma iterencode_list_length (data : list Record) :
  (2 <= length (iterencode_list data 0))%nat /\
  (length data + 2 <= length (iterencode_list data 0))%nat /\
  Forall (fun r : Record =>
            (length r + 2 <= length (iterencode_list data 0))%nat) data.
Proof.
  destruct data as [|r data]; [cbn; repeat split; try lia; constructor|].
  destruct (list_items_length 1 (r :: data) true) as [H1 H2].
  unfold iterencode_list, newline_indent.
  cbn [length app]. rewrite !length_app. cbn [length] in *.
  split; [lia|]. split; [lia|].
  revert H2. apply Forall_impl. intros r' Hr'. lia.
Qed.

Lemma iterencode_list_head (data : list Record) :
  skip_ws (iterencode_list data 0) = iterencode_list data 0.
Proof. destruct data; reflexivity. Qed.

(** Decoding what [save_to_json] writes *)
Lemma loads_dump (data : list Record) :
  Forall record_safe data ->
  loads (dump data) = Ok (records_value data).
Proof.
  intros Hsafe. unfold loads, dump. rewrite iterencode_list_head.
  destruct (iterencode_list_length data) as (H2 & Hd & Hr).
  remember (length (iterencode_list data 0)) as n eqn:Hn.
  destruct n as [|[|f]]; try lia.
  rewrite <- (app_nil_r (iterencode_list data 0)).
  rewrite (scan_once_records f data []); [reflexivity|exact Hsafe| |lia].
  revert Hr. apply Forall_impl. intros r Hr. lia.
Qed.

Lemma json_safeb_sound (s : str) : json_safeb s = true -> json_safe s.
Proof.
  induction s as [|c s IH]; [constructor|].
  cbn [json_safeb json_safe]. intros H.
  apply andb_true_iff in H. destruct H as [H Hs].
  apply andb_true_iff in H. destruct H as [Hc Hp].
  split; [now apply N.ltb_lt|]. split; [|now apply IH].
  intros Hh. rewrite Hh in Hp. cbn [negb orb] in Hp.
  destruct s as [|c' s']; [exact I|]. now apply negb_true_iff.
Qed.

Lemma distinctb_sound (l : list str) : distinctb l = true -> NoDup l.
Proof.
  induction l as [|x l IH]; [constructor|].
  cbn [distinctb]. intros H. apply andb_true_iff in H. destruct H as [Hx Hl].
  constructor; [|now apply IH].
  intros Hin. apply negb_true_iff in Hx.
  assert (Hex : existsb (str_eqb x) l = true).
  { apply existsb_exists. exists x. split; [exact Hin|apply str_eqb_refl]. }
  congruence.
Qed.

Lemma record_safeb_sound (r : Record) : record_safeb r = true -> record_safe r.
Proof.
  unfold record_safeb, record_safe. intros H.
  apply andb_true_iff in H. destruct H as [Hd Hs]. split.
  - now apply distinctb_sound.
  - apply Forall_forall. intros kv Hin.
    rewrite forallb_forall in Hs. specialize (Hs kv Hin).
    apply andb_true_iff in Hs. destruct Hs as [Hk Hv].
    split; now apply json_safeb_sound.
Qed.

End JsonFacts.

Lemma extract_information_keys (text : str) :
  NoDup (keys (extract_information text)).
Proof.
  unfold extract_information, second_pass, first_pass.
  assert (H1 : forall lines r, NoDup (keys r) ->
                 NoDup (keys (fold_left first_pass_step lines r))).
  { induction lines as [|line lines IH]; intros r Hr; [exact Hr|].
    cbn [fold_left]. apply IH. unfold first_pass_step.
    destruct (Regex.search line) as [[g1 g2]|]; [|exact Hr].
    now apply (dict_set_NoDup str_eqb str_eqb_eq). }
  assert (H2 : forall lines r, NoDup (keys r) ->
                 NoDup (keys (fold_left second_pass_step lines r))).
  { induction lines as [|line lines IH]; intros r Hr; [exact Hr|].
    cbn [fold_left]. apply IH. unfold second_pass_step.
    destruct line as [|c line]; [exact Hr|].
    destruct (mem (c :: line) r); [exact Hr|].
    now apply (dict_set_NoDup str_eqb str_eqb_eq). }
  apply H2, H1. constructor.
Qed.

(** *** The strings of an extracted record are pieces of the text *)

Lemma infix_refl (a : str) : infix a a.
Proof. exists [], []. now rewrite app_nil_r. Qed.

Lemma infix_trans (a b c : str) : infix a b -> infix b c -> infix a c.
Proof.
  intros (p & q & ->) (p' & q' & ->). exists (p' ++ p), (q ++ q').
  now rewrite <- !app_assoc.
Qed.

Lemma infix_suffix (p a : str) : infix a (p ++ a).
Proof. exists p, []. now rewrite app_nil_r. Qed.

Lemma infix_prefix (a q : str) : infix a (a ++ q).
Proof. now exists [], q. Qed.

Lemma infix_nil (b : str) : infix [] b.
Proof. now exists [], b. Qed.

Lemma lstrip_suffix (s : str) : exists p, s = p ++ lstrip s.
Proof.
  induction s as [|c s [p IH]]; [now exists []|]. simpl.
  destruct (isspace c); [|now exists []].
  exists (c :: p). simpl. now rewrite <- IH.
Qed.

Lemma strip_infix (s : str) : infix (strip s) s.
Proof.
  unfold strip, rstrip.
  apply infix_trans with (lstrip s).
  - destruct (lstrip_suffix (rev (lstrip s))) as [p Hp].
    exists [], (rev p). cbn [app].
    rewrite <- rev_app_distr, <- Hp. now rewrite rev_involutive.
  - destruct (lstrip_suffix s) as [p Hp]. rewrite Hp at 2.
    apply infix_suffix.
Qed.

Lemma dot_star_prefix (s : str) : exists q, s = Regex.dot_star s ++ q.
Proof.
  induction s as [|c s [q IH]]; [now exists []|]. simpl.
  destruct (Regex.dot c); [|now exists (c :: s)].
  exists q. simpl. now rewrite <- IH.
Qed.

Lemma lazy_key_parts (s g1 g rest : str) :
  Regex.lazy_key g1 s = Some (g, rest) ->
  exists m, g = rev g1 ++ m /\ s = m ++ colon :: rest.
Proof.
  revert g1. induction s as [|c s IH]; intros g1 H; [discriminate|].
  cbn [Regex.lazy_key] in H.
  destruct (Regex.dot c); [|discriminate].
  destruct s as [|c' s']; [discriminate|].
  destruct (c' =? colon)%N eqn:E.
  - apply N.eqb_eq in E. subst c'. inversion H; subst.
    exists [c]. split; reflexivity.
  - apply IH in H. destruct H as (m & -> & Hs).
    exists (c :: m). cbn [rev]. rewrite <- app_assoc. split; [reflexivity|].
    cbn [app]. now rewrite Hs.
Qed.

Lemma match_here_infix (s g1 g2 : str) :
  Regex.match_here s = Some (g1, g2) -> infix g1 s /\ infix g2 s.
Proof.
  unfold Regex.match_here.
  destruct (Regex.lazy_key [] s) as [[g rest]|] eqn:E; [|discriminate].
  intros H. inversion H; subst.
  apply lazy_key_parts in E. destruct E as (m & -> & ->). cbn [rev app].
  split; [apply infix_prefix|].
  apply infix_trans with rest; [|exists (m ++ [colon]), [];
    now rewrite app_nil_r, <- app_assoc].
  destruct (dot_star_prefix (Regex.skip_spaces rest)) as [q Hq].
  apply infix_trans with (Regex.skip_spaces rest).
  - rewrite Hq at 2. apply infix_prefix.
  - rewrite skip_spaces_lstrip. destruct (lstrip_suffix rest) as [p Hp].
    rewrite Hp at 2. apply infix_suffix.
Qed.

Lemma search_infix (s g1 g2 : str) :
  Regex.search s = Some (g1, g2) -> infix g1 s /\ infix g2 s.
Proof.
  induction s as [|c s IH]; cbn [Regex.search].
  - destruct (Regex.match_here []) as [m|] eqn:E; [|discriminate].
    intros H. inversion H; subst. now apply match_here_infix.
  - destruct (Regex.match_here (c :: s)) as [m|] eqn:E.
    + intros H. inversion H; subst. now apply match_here_infix.
    + intros H. destruct (IH H) as [H1 H2].
      split; (eapply infix_trans; [eassumption|apply (infix_suffix [c])]).
Qed.

Lemma splitlines_from_infix (n : nat) :
  forall (s cur line : str),
    length s <= n ->
    In line (splitlines_from cur s) -> infix line (rev cur ++ s).
Proof.
  induction n as [|n IH]; intros s cur line Hlen Hin.
  - destruct s; [|simpl in Hlen; lia]. simpl in Hin.
    destruct cur; [destruct Hin|]. destruct Hin as [<-|[]].
    rewrite app_nil_r. apply infix_refl.
  - destruct s as [|c s]; simpl in Hin.
    + destruct cur; [destruct Hin|]. destruct Hin as [<-|[]].
      rewrite app_nil_r. apply infix_refl.
    + simpl in Hlen.
      assert (Hrest : forall t, length t <= n -> infix t (c :: s) ->
                In line (splitlines_from [] t) ->
                infix line (rev cur ++ c :: s)).
      { intros t Ht Hts Hl. apply (IH t [] line Ht) in Hl. cbn [rev app] in Hl.
        eapply infix_trans; [exact Hl|].
        eapply infix_trans; [exact Hts|apply infix_suffix]. }
      destruct (islinebreak c).
      * destruct Hin as [<-|Hin]; [apply infix_prefix|].
        destruct (c =? cr)%N.
        -- destruct s as [|c' s'].
           ++ destruct Hin.
           ++ destruct (c' =? nl)%N.
              ** apply (Hrest s'); [simpl in Hlen; lia| |exact Hin].
                 apply (infix_suffix [c; c']).
              ** apply (Hrest (c' :: s')); [lia| |exact Hin].
                 apply (infix_suffix [c]).
        -- apply (Hrest s); [lia| |exact Hin]. apply (infix_suffix [c]).
      * apply (IH s (c :: cur) line) in Hin; [|lia].
        cbn [rev] in Hin. now rewrite <- app_assoc in Hin.
Qed.

Lemma splitlines_infix (text line : str) :
  In line (splitlines text) -> infix line text.
Proof. apply (splitlines_from_infix (length text) text []). lia. Qed.

(** Every key and value of the extracted record is a piece of the text. *)
Lemma extract_information_infix (text : str) :
  Forall (fun kv => infix (fst kv) text /\ infix (snd kv) text)
         (extract_information text).
Proof.
  unfold extract_information, second_pass, first_pass.
  set (P := fun kv : str * str => infix (fst kv) text /\ infix (snd kv) text).
  assert (Hset : forall k v r, infix k text -> infix v text ->
                   Forall P r -> Forall P (set k v r)).
  { intros k v r Hk Hv Hr. apply Forall_forall. intros kv Hin.
    apply (dict_set_In str_eqb str_eqb_eq) in Hin.
    destruct Hin as [[Hk' Hv']|Hin].
    - split; [now rewrite Hk'|now rewrite Hv'].
    - rewrite Forall_forall in Hr. now apply Hr. }
  assert (H1 : forall lines r,
             (forall line, In line lines -> infix line text) ->
             Forall P r -> Forall P (fold_left first_pass_step lines r)).
  { induction lines as [|line lines IH]; intros r Hl Hr; [exact Hr|].
    cbn [fold_left]. apply IH; [intros l Hin; apply Hl; now right|].
    unfold first_pass_step.
    destruct (Regex.search line) as [[g1 g2]|] eqn:E; [|exact Hr].
    apply search_infix in E. destruct E as [E1 E2].
    assert (Hline : infix line text) by (apply Hl; now left).
    apply Hset; [| |exact Hr].
    - eapply infix_trans; [apply strip_infix|].
      eapply infix_trans; eassumption.
    - eapply infix_trans; [apply strip_infix|].
      eapply infix_trans; eassumption. }
  assert (H2 : forall lines r,
             (forall line, In line lines -> infix line text) ->
             Forall P r -> Forall P (fold_left second_pass_step lines r)).
  { induction lines as [|line lines IH]; intros r Hl Hr; [exact Hr|].
    cbn [fold_left]. apply IH; [intros l Hin; apply Hl; now right|].
    unfold second_pass_step. destruct line as [|c line]; [exact Hr|].
    destruct (mem (c :: line) r); [exact Hr|].
    apply Hset; [apply Hl; now left|apply infix_nil|exact Hr]. }
  apply H2; [apply splitlines_infix|].
  apply H1; [apply splitlines_infix|constructor].
Qed.

Section JsonSafety.
Import Json.

Lemma json_safe_suffix (p s : str) : json_safe (p ++ s) -> json_safe s.
Proof.
  induction p as [|c p IH]; [trivial|]. cbn [app json_safe].
  intros (_ & _ & H). now apply IH.
Qed.

Lemma json_safe_prefix (s q : str) : json_safe (s ++ q) -> json_safe s.
Proof.
  induction s as [|c s IH]; [constructor|]. cbn [app json_safe].
  intros (Hc & Hp & Hs). split; [exact Hc|]. split; [|now apply IH].
  intros Hh. specialize (Hp Hh). destruct s; [exact I|exact Hp].
Qed.

Lemma json_safe_infix (a b : str) : infix a b -> json_safe b -> json_safe a.
Proof.
  intros (p & q & ->) H. apply json_safe_suffix in H.
  now apply json_safe_prefix in H.
Qed.

Lemma extract_information_safe (text : str) :
  json_safe text -> record_safe (extract_information text).
Proof.
  intros Hs. split; [apply extract_information_keys|].
  pose proof (extract_information_infix text) as H.
  revert H. apply Forall_impl. intros kv [Hk Hv].
  split; eapply json_safe_infix; eassumption.
Qed.

End JsonSafety.

(** C9, as stated, fails on a text with a surrogate pair written as two
    code points: the escapes of the two are read back as one character, so
    the key that comes back is not the key that was written. *)
Lemma C9_counterexample_surrogate_pair :
  extract_information [55357; 56832]%N = [([55357; 56832]%N, [])] /\
  Json.loads (save_to_json [extract_information [55357; 56832]%N]) =
  Json.Ok (Json.JArray [Json.JObject [([128512]%N, Json.JString [])]]) /\
  Json.loads (save_to_json [extract_information [55357; 56832]%N]) <>
  Json.Ok (records_value [extract_information [55357; 56832]%N]).
Proof. vm_compute. repeat split. discriminate. Qed.

(** C9, amended: for the records extracted from texts in which no high
    surrogate stands directly before a low surrogate, reading back what
    [save_to_json] writes gives one object per record, with the keys of
    the record in their order and the values of the record. *)
Theorem C9_json_round_trip (texts : list str) :
  Forall json_safe texts ->
  Json.loads (save_to_json (map extract_information texts)) =
  Json.Ok (records_value (map extract_information texts)).
Proof.
  intros Hsafe. apply loads_dump. apply Forall_map.
  revert Hsafe. apply Forall_impl. apply extract_information_safe.
Qed.

Lemma C9_witness :
  Json.loads
    (save_to_json
       (map extract_information
            [lit "Name: Dell" ++ nl :: lit "Price: 500"; []; [233; 128512]%N])) =
  Json.Ok
    (records_value
       (map extract_information
            [lit "Name: Dell" ++ nl :: lit "Price: 500"; []; [233; 128512]%N])).
Proof.
  apply (C9_json_round_trip
           [lit "Name: Dell" ++ nl :: lit "Price: 500"; []; [233; 128512]%N]).
  repeat (apply Forall_cons; [apply json_safeb_sound; reflexivity|]).
  apply Forall_nil.
Defined.

(** ** The corpus *)

Section CorpusFacts.
Variable sep : char.
Variable altsep : option char.
Variable pdf_pages : str -> option (list str).
Variable html_get_text : str -> option str.

Local Abbreviation parse_document :=
  (DocumentParser.parse_document sep altsep pdf_pages html_get_text).
Local Abbreviation extracted_info :=
  (DocumentParser.extracted_info sep altsep pdf_pages html_get_text).
Local Abbreviation ext_of :=
  (fun path => DocumentParser.lower
                 (snd (DocumentParser.splitext sep altsep path))).

Lemma parse_document_unsupported (path : str) :
  ext_of path <> lit ".pdf" -> ext_of path <> lit ".html" ->
  parse_document path = [].
Proof.
  intros Hpdf Hhtml. unfold DocumentParser.parse_document.
  now rewrite (str_eqb_neq _ _ Hpdf), (str_eqb_neq _ _ Hhtml).
Qed.

Lemma parse_document_pdf_failure (path : str) :
  ext_of path = lit ".pdf" -> pdf_pages path = None ->
  parse_document path = [].
Proof.
  intros Hpdf Hfail. unfold DocumentParser.parse_document.
  cbv beta in Hpdf. rewrite Hpdf, str_eqb_refl.
  unfold DocumentParser._parse_pdf. now rewrite Hfail.
Qed.

Lemma parse_document_html_failure (path : str) :
  ext_of path = lit ".html" -> html_get_text path = None ->
  parse_document path = [].
Proof.
  intros Hhtml Hfail. unfold DocumentParser.parse_document.
  cbv beta in Hhtml. rewrite Hhtml.
  change (str_eqb (lit ".html") (lit ".pdf")) with false.
  rewrite str_eqb_refl.
  unfold DocumentParser._parse_html. now rewrite Hfail.
Qed.

(** C7: the corpus has one record per input path, in the order of the
    paths; a path with an unsupported extension, or whose decoder
    raises, gives the empty record at its position; and the empty text
    gives the empty record. *)
Theorem C7_corpus_one_record_per_document (document_paths : list str) :
  length (extracted_info document_paths) = length document_paths /\
  (forall i path,
      nth_error document_paths i = Some path ->
      nth_error (extracted_info document_paths) i =
        Some (extract_information (parse_document path)) /\
      (ext_of path <> lit ".pdf" -> ext_of path <> lit ".html" ->
       nth_error (extracted_info document_paths) i = Some []) /\
      (ext_of path = lit ".pdf" -> pdf_pages path = None ->
       nth_error (extracted_info document_paths) i = Some []) /\
      (ext_of path = lit ".html" -> html_get_text path = None ->
       nth_error (extracted_info document_paths) i = Some [])) /\
  extract_information [] = [].
Proof.
  split; [|split; [|reflexivity]].
  - unfold DocumentParser.extracted_info, DocumentParser.parsed_docs.
    now rewrite !length_map.
  - intros i path Hnth.
    assert (Hi : nth_error (extracted_info document_paths) i =
                 Some (extract_information (parse_document path))).
    { unfold DocumentParser.extracted_info, DocumentParser.parsed_docs.
      rewrite map_map.
      exact (map_nth_error
               (fun p => extract_information (parse_document p))
               i document_paths Hnth). }
    split; [exact Hi|]. rewrite Hi. repeat split.
    + intros H1 H2. now rewrite parse_document_unsupported.
    + intros H1 H2. now rewrite parse_document_pdf_failure.
    + intros H1 H2. now rewrite parse_document_html_failure.
Qed.
End CorpusFacts.

Lemma C7_witness :
  length (DocumentParser.extracted_info 47%N None
            (fun _ => None) (fun _ => Some (lit " Name: HP "))
            [lit "docs/a.PDF"; lit "docs/b.txt"; lit "docs/c.html"]) = 3 /\
  nth_error (DocumentParser.extracted_info 47%N None
               (fun _ => None) (fun _ => Some (lit " Name: HP "))
               [lit "docs/a.PDF"; lit "docs/b.txt"; lit "docs/c.html"]) 0 =
    Some [] /\
  nth_error (DocumentParser.extracted_info 47%N None
               (fun _ => None) (fun _ => Some (lit " Name: HP "))
               [lit "docs/a.PDF"; lit "docs/b.txt"; lit "docs/c.html"]) 1 =
    Some [].
Proof.
  destruct (C7_corpus_one_record_per_document 47%N None
              (fun _ => None) (fun _ => Some (lit " Name: HP "))
              [lit "docs/a.PDF"; lit "docs/b.txt"; lit "docs/c.html"])
    as (Hlen & H & _).
  split; [exact Hlen|]. split.
  - destruct (H 0%nat (lit "docs/a.PDF") eq_refl) as (_ & _ & Ha & _).
    apply Ha; reflexivity.
  - destruct (H 1%nat (lit "docs/b.txt") eq_refl) as (_ & Hb & _).
    apply Hb; discriminate.
Defined.


(* ================================================================== *)
(** * Further properties *)

(** ** extract_information *)

Lemma first_pass_entries (lines : list str) (r : Record) (kv : str * str) :
  Forall no_linebreak lines ->
  In kv (first_pass lines r) ->
  In kv r \/ exists line, In line lines /\ produces line = Some kv.
Proof.
  unfold first_pass. revert r.
  induction lines as [|line lines IH]; intros r Hnl Hin; [now left|].
  inversion Hnl as [|? ? Hline Hnl']; subst.
  cbn [fold_left] in Hin. destruct (IH _ Hnl' Hin) as [Hr|(l & Hl & Hp)].
  - rewrite first_pass_step_produces in Hr by exact Hline.
    destruct (produces line) as [[k v]|] eqn:E; [|now left].
    apply (dict_set_In str_eqb str_eqb_eq) in Hr.
    destruct Hr as [[Hk Hv]|Hr]; [|now left].
    right. exists line. split; [now left|].
    destruct kv as [k' v']. cbn [fst snd] in *. now subst.
  - right. exists l. split; [now right|exact Hp].
Qed.

(** Where each entry of the returned record comes from *)
Lemma extract_information_entries (text : str) (k v : str) :
  In (k, v) (extract_information text) ->
  (exists line, In line (splitlines text) /\ produces line = Some (k, v)) \/
  (v = [] /\ In k (splitlines text) /\ k <> []).
Proof.
  intros Hin.
  destruct (second_pass_spec (splitlines text) (first_pass (splitlines text) []))
    as (added & Heq & Hiff).
  unfold extract_information in Hin. cbv zeta in Hin. rewrite Heq in Hin.
  apply in_app_or in Hin. destruct Hin as [Hin|Hin].
  - left. apply first_pass_entries in Hin; [|apply splitlines_no_linebreak].
    destruct Hin as [[]|H]. exact H.
  - right. apply Hiff in Hin. tauto.
Qed.

(** X1: every entry of the returned record is either the stripped key and
    value of the split of some line, or a non-empty line kept whole with
    the empty value; the record holds nothing else. *)
Theorem X1_entries_come_from_lines (text k v : str) :
  In (k, v) (extract_information text) ->
  (exists line pre post,
      In line (splitlines text) /\
      line_split line = Some (pre, post) /\
      k = strip pre /\ v = strip post) \/
  (v = [] /\ In k (splitlines text) /\ k <> []).
Proof.
  intros Hin. apply extract_information_entries in Hin.
  destruct Hin as [(line & Hl & Hp)|H]; [left|now right].
  unfold produces in Hp.
  destruct (line_split line) as [[pre post]|] eqn:E; [|discriminate].
  inversion Hp; subst. now exists line, pre, post.
Qed.

Lemma X1_witness :
  (exists line pre post,
      In line (splitlines (lit "a: 1")) /\
      line_split line = Some (pre, post) /\
      lit "a" = strip pre /\ lit "1" = strip post) \/
  (lit "1" = [] /\ In (lit "a") (splitlines (lit "a: 1")) /\ lit "a" <> []).
Proof.
  apply (X1_entries_come_from_lines (lit "a: 1") (lit "a") (lit "1")).
  vm_compute. now left.
Defined.

(** X2: no non-empty line is lost: every non-empty line of the text is a
    key of the returned record. *)
Theorem X2_every_line_is_a_key (text line : str) :
  In line (splitlines text) ->
  line <> [] ->
  exists v, get line (extract_information text) = Some v.
Proof.
  intros Hin Hne.
  destruct (second_pass_spec (splitlines text) (first_pass (splitlines text) []))
    as (added & Heq & Hiff).
  destruct (get line (first_pass (splitlines text) [])) as [v|] eqn:E.
  - exists v. unfold extract_information. now apply second_pass_keeps.
  - exists []. apply (dict_get_NoDup str_eqb str_eqb_eq).
    + apply extract_information_keys.
    + unfold extract_information. cbv zeta. rewrite Heq.
      apply in_or_app. right. apply Hiff. now repeat split.
Qed.

Lemma X2_witness :
  exists v,
    get (lit "Name: Dell")
        (extract_information (lit "Name: Dell" ++ nl :: lit "Price: 500")) =
    Some v.
Proof.
  apply (X2_every_line_is_a_key
           (lit "Name: Dell" ++ nl :: lit "Price: 500") (lit "Name: Dell")).
  - vm_compute. now left.
  - discriminate.
Defined.

(** X3: the record never holds text that is not in the input: every key
    and every value is a run of consecutive characters of the text. *)
Theorem X3_strings_are_pieces_of_the_text (text : str) :
  Forall (fun kv => infix (fst kv) text /\ infix (snd kv) text)
         (extract_information text).
Proof. apply extract_information_infix. Qed.

Lemma lstrip_app_nonspace (a : str) (c : char) :
  isspace c = false -> lstrip (a ++ [c]) = lstrip a ++ [c].
Proof.
  intros Hc. induction a as [|x a IH]; simpl; [now rewrite Hc|].
  destruct (isspace x); [exact IH|reflexivity].
Qed.

Lemma lstrip_fixed (y : str) :
  match y with [] => True | c :: _ => isspace c = false end ->
  lstrip y = y.
Proof. destruct y as [|c y]; simpl; [trivial|]. now intros ->. Qed.

Lemma rstrip_head (y : str) :
  match y with [] => True | c :: _ => isspace c = false end ->
  match rstrip y with [] => True | c :: _ => isspace c = false end.
Proof.
  destruct y as [|c y]; [trivial|]. intros Hc. unfold rstrip.
  cbn [rev]. rewrite (lstrip_app_nonspace _ _ Hc), rev_app_distr.
  exact Hc.
Qed.

Lemma rstrip_idem (y : str) : rstrip (rstrip y) = rstrip y.
Proof. unfold rstrip. now rewrite rev_involutive, lstrip_idem. Qed.

Lemma strip_idem (x : str) : strip (strip x) = strip x.
Proof.
  unfold strip.
  rewrite (lstrip_fixed (rstrip (lstrip x))).
  - apply rstrip_idem.
  - apply rstrip_head, lstrip_head.
Qed.

(** X4: values carry no surrounding whitespace, and neither does the key
    of an entry whose value is not empty. *)
Theorem X4_values_are_stripped (text k v : str) :
  In (k, v) (extract_information text) ->
  strip v = v /\ (v <> [] -> strip k = k).
Proof.
  intros Hin. apply extract_information_entries in Hin.
  destruct Hin as [(line & _ & Hp)|(-> & _ & _)].
  - unfold produces in Hp.
    destruct (line_split line) as [[pre post]|]; [|discriminate].
    inversion Hp; subst. split; [apply strip_idem|].
    intros _. apply strip_idem.
  - split; [reflexivity|congruence].
Qed.

Lemma X4_witness :
  strip (lit "value") = lit "value" /\
  (lit "value" <> [] -> strip (lit "key") = lit "key").
Proof.
  apply (X4_values_are_stripped (lit "  key :  value  ")).
  vm_compute. now left.
Defined.

Lemma dict_set_length (k v : str) (r : Record) :
  length (set k v r) <= S (length r).
Proof.
  unfold set. induction r as [|[k' v'] r IH]; simpl; [lia|].
  destruct (str_eqb k k'); simpl; lia.
Qed.

(** X5: a line adds at most one entry in each loop: the record has at most
    twice as many entries as the text has lines. *)
Theorem X5_at_most_two_entries_per_line (text : str) :
  length (extract_information text) <= 2 * length (splitlines text).
Proof.
  unfold extract_information, second_pass, first_pass.
  assert (H1 : forall lines r,
             length (fold_left first_pass_step lines r)
             <= length r + length lines).
  { induction lines as [|line lines IH]; intros r; cbn [fold_left length]; [lia|].
    specialize (IH (first_pass_step r line)).
    assert (length (first_pass_step r line) <= S (length r)).
    { unfold first_pass_step.
      destruct (Regex.search line) as [[g1 g2]|]; [apply dict_set_length|lia]. }
    lia. }
  assert (H2 : forall lines r,
             length (fold_left second_pass_step lines r)
             <= length r + length lines).
  { induction lines as [|line lines IH]; intros r; cbn [fold_left length]; [lia|].
    specialize (IH (second_pass_step r line)).
    assert (length (second_pass_step r line) <= S (length r)).
    { unfold second_pass_step. destruct line as [|c line]; [lia|].
      destruct (mem (c :: line) r); [lia|apply dict_set_length]. }
    lia. }
  specialize (H1 (splitlines text) []).
  specialize (H2 (splitlines text)
                 (fold_left first_pass_step (splitlines text) [])).
  cbn [length] in H1. lia.
Qed.

(** X6: the whole-line entries of the second loop never reach the text
    that is embedded: the representative string of the extracted record is
    that of the record of the first loop. *)
Theorem X6_representative_ignores_second_pass (text : str) :
  RAGModel.representative (extract_information text) =
  RAGModel.representative (first_pass (splitlines text) []).
Proof.
  destruct (second_pass_spec (splitlines text) (first_pass (splitlines text) []))
    as (added & Heq & Hiff).
  unfold extract_information. cbv zeta. rewrite Heq.
  unfold RAGModel.representative. rewrite filter_app.
  assert (Hnone : filter RAGModel.truthy added = []).
  { assert (Hall : forall kv, In kv added -> snd kv = []).
    { intros [k v] Hin. apply Hiff in Hin. tauto. }
    clear Hiff Heq. induction added as [|kv added IH]; [reflexivity|].
    cbn [filter]. unfold RAGModel.truthy at 1.
    rewrite (Hall kv (or_introl eq_refl)).
    apply IH. intros kv' Hin. apply Hall. now right. }
  now rewrite Hnone, app_nil_r.
Qed.

Lemma nodup_snoc (a : list str) (x : str) :
  nodup (list_eq_dec N.eq_dec) (a ++ [x]) =
  nodup (list_eq_dec N.eq_dec) (filter (fun y => negb (str_eqb y x)) a) ++ [x].
Proof.
  induction a as [|y a IH]; [reflexivity|].
  cbn [app nodup filter].
  destruct (list_eq_dec N.eq_dec y x) as [->|Hne].
  - rewrite str_eqb_refl. cbn [negb].
    destruct (in_dec (list_eq_dec N.eq_dec) x (a ++ [x])) as [_|Hn];
      [exact IH|].
    exfalso. apply Hn, in_or_app. right. now left.
  - rewrite (str_eqb_neq _ _ Hne). cbn [negb nodup].
    destruct (in_dec (list_eq_dec N.eq_dec) y (a ++ [x])) as [Hin|Hn];
      destruct (in_dec (list_eq_dec N.eq_dec) y
                       (filter (fun y => negb (str_eqb y x)) a)) as [Hin'|Hn'].
    + exact IH.
    + exfalso. apply Hn'. apply filter_In.
      apply in_app_or in Hin. destruct Hin as [Hin|[Hx|[]]]; [|congruence].
      split; [exact Hin|]. now rewrite (str_eqb_neq _ _ Hne).
    + exfalso. apply Hn, in_or_app. left. now apply filter_In in Hin'.
    + cbn [app]. now rewrite IH.
Qed.

Lemma first_occurrences_cons (x : str) (l : list str) :
  first_occurrences (x :: l) =
  x :: first_occurrences (filter (fun y => negb (str_eqb y x)) l).
Proof.
  unfold first_occurrences. cbn [rev].
  rewrite nodup_snoc, rev_app_distr. cbn [rev app].
  now rewrite filter_rev.
Qed.

Lemma mem_plain (x : str) (kept : list str) :
  mem x (map (fun l : str => (l, @nil char)) kept) = existsb (str_eqb x) kept.
Proof.
  unfold mem, dict_mem.
  induction kept as [|y kept IH]; [reflexivity|].
  cbn [map dict_get existsb]. destruct (str_eqb x y); [reflexivity|exact IH].
Qed.

(** The second loop on a record of whole lines *)
Lemma second_pass_plain (lines : list str) :
  forall kept : list str,
    second_pass lines (map (fun l : str => (l, @nil char)) kept) =
    map (fun l : str => (l, @nil char))
        (kept ++ first_occurrences
                   (filter (fun l => negb (is_empty l)
                                     && negb (existsb (str_eqb l) kept))
                           lines)).
Proof.
  unfold second_pass.
  induction lines as [|x lines IH]; intros kept.
  - cbn. now rewrite app_nil_r.
  - cbn [fold_left filter]. unfold second_pass_step at 2.
    destruct x as [|c x]; [apply IH|].
    cbn [is_empty negb andb]. rewrite mem_plain.
    destruct (existsb (str_eqb (c :: x)) kept) eqn:E; cbn [negb]; [apply IH|].
    assert (Hnew : get (c :: x) (map (fun l : str => (l, @nil char)) kept) = None).
    { pose proof (mem_plain (c :: x) kept) as Hm. rewrite E in Hm.
      unfold mem, dict_mem in Hm. unfold get.
      destruct (dict_get str_eqb (c :: x) _); [discriminate|reflexivity]. }
    unfold set. rewrite (dict_set_new str_eqb _ _ _ Hnew).
    change (map (fun l : str => (l, @nil char)) kept ++ [(c :: x, [])])
      with (map (fun l : str => (l, @nil char)) kept
            ++ map (fun l : str => (l, @nil char)) [c :: x]).
    rewrite <- map_app, IH, first_occurrences_cons, <- app_assoc.
    cbn [app]. f_equal. f_equal. f_equal. f_equal.
    clear. induction lines as [|y lines IH]; [reflexivity|].
    cbn [filter]. rewrite existsb_app. cbn [existsb].
    rewrite orb_false_r.
    destruct (is_empty y); cbn [negb andb]; [exact IH|].
    destruct (existsb (str_eqb y) kept); cbn [negb orb filter].
    + exact IH.
    + destruct (str_eqb y (c :: x)); cbn [negb]; [exact IH|now rewrite IH].
Qed.

(** X7: free text is kept line by line: when no line has a colon after its
    first character, the record is made of the non-empty lines, each once,
    in the order of their first occurrence, every value empty. *)
Theorem X7_text_without_colon (text : str) :
  (forall line, In line (splitlines text) -> ~ In colon (tl line)) ->
  extract_information text =
  map (fun l : str => (l, @nil char))
      (first_occurrences
         (filter (fun l => negb (is_empty l)) (splitlines text))).
Proof.
  intros Hplain. unfold extract_information. cbv zeta.
  assert (H1 : forall lines,
             (forall line, In line lines -> ~ In colon (tl line)) ->
             first_pass lines [] = []).
  { unfold first_pass. induction lines as [|line lines IH]; intros H;
      [reflexivity|].
    cbn [fold_left]. unfold first_pass_step at 2.
    rewrite (search_no_colon line) by (apply H; now left).
    apply IH. intros l Hl. apply H. now right. }
  rewrite (H1 _ Hplain).
  pose proof (second_pass_plain (splitlines text) []) as H2.
  cbn [map app] in H2. etransitivity; [exact H2|].
  f_equal. f_equal. apply filter_ext. intros l. cbn [existsb].
  apply andb_true_r.
Qed.

Lemma X7_witness :
  extract_information (lit "b" ++ nl :: nl :: lit "a" ++ nl :: lit "b") =
  [(lit "b", []); (lit "a", [])].
Proof.
  apply (X7_text_without_colon
           (lit "b" ++ nl :: nl :: lit "a" ++ nl :: lit "b")).
  intros line Hin. vm_compute in Hin.
  repeat (destruct Hin as [<-|Hin]; [intros []|]). destruct Hin.
Defined.

(** ** parse_document *)

Lemma rfind_from_app (c : char) (a b : str) (i last : Z) :
  DocumentParser.rfind_from c (a ++ b) i last =
  DocumentParser.rfind_from c b (i + Z.of_nat (length a))
                            (DocumentParser.rfind_from c a i last).
Proof.
  revert i last. induction a as [|x a IH]; intros i last.
  - cbn. f_equal. lia.
  - cbn [app DocumentParser.rfind_from length]. rewrite IH. f_equal. lia.
Qed.

Lemma rfind_from_notin (c : char) (p : str) (i last : Z) :
  ~ In c p -> DocumentParser.rfind_from c p i last = last.
Proof.
  revert i last. induction p as [|x p IH]; intros i last Hn; [reflexivity|].
  cbn [DocumentParser.rfind_from].
  destruct (x =? c)%N eqn:E.
  - apply N.eqb_eq in E. exfalso. apply Hn. now left.
  - apply IH. intros H. apply Hn. now right.
Qed.

Lemma rfind_from_range (c : char) (p : str) (i last : Z) :
  DocumentParser.rfind_from c p i last = last \/
  (i <= DocumentParser.rfind_from c p i last < i + Z.of_nat (length p))%Z.
Proof.
  revert i last. induction p as [|x p IH]; intros i last; [now left|].
  cbn [DocumentParser.rfind_from length].
  destruct (x =? c)%N.
  - right. destruct (IH (i + 1)%Z i) as [->|H]; lia.
  - destruct (IH (i + 1)%Z last) as [->|H]; [now left|right; lia].
Qed.

Lemma rfind_range (c : char) (p : str) :
  (-1 <= DocumentParser.rfind c p < Z.of_nat (length p))%Z.
Proof.
  unfold DocumentParser.rfind.
  destruct (rfind_from_range c p 0 (-1)) as [->|H]; lia.
Qed.

Lemma rfind_last (c : char) (a b : str) :
  ~ In c b -> DocumentParser.rfind c (a ++ c :: b) = Z.of_nat (length a).
Proof.
  intros Hn. unfold DocumentParser.rfind. rewrite rfind_from_app.
  cbn [DocumentParser.rfind_from]. rewrite N.eqb_refl.
  now rewrite rfind_from_notin.
Qed.

Lemma rfind_before (c : char) (a b : str) :
  ~ In c b ->
  (-1 <= DocumentParser.rfind c (a ++ b) < Z.of_nat (length a))%Z.
Proof.
  intros Hn. unfold DocumentParser.rfind.
  rewrite rfind_from_app, rfind_from_notin by exact Hn.
  apply rfind_range.
Qed.

Lemma rfind_absent (c : char) (p : str) :
  ~ In c p -> DocumentParser.rfind c p = (-1)%Z.
Proof. apply rfind_from_notin. Qed.

Section ParseFacts.
Variable sep : char.
Variable altsep : option char.
Variable pdf_pages : str -> option (list str).
Variable html_get_text : str -> option str.

Local Abbreviation parse_document :=
  (DocumentParser.parse_document sep altsep pdf_pages html_get_text).
Local Abbreviation splitext := (DocumentParser.splitext sep altsep).
Local Abbreviation seps := (separators sep altsep).

(** The index of the last separator, as [splitext] computes it *)
Local Abbreviation sep_index p :=
  (match altsep with
   | Some a => Z.max (DocumentParser.rfind sep p) (DocumentParser.rfind a p)
   | None => DocumentParser.rfind sep p
   end).

Lemma sep_index_upper (p : str) (b : Z) :
  (forall s, In s seps -> (DocumentParser.rfind s p <= b)%Z) ->
  (sep_index p <= b)%Z.
Proof.
  intros H. unfold separators in H.
  pose proof (H sep (or_introl eq_refl)) as Hs.
  destruct altsep as [a|]; [|exact Hs].
  pose proof (H a (or_intror (or_introl eq_refl))). lia.
Qed.

Lemma sep_index_lower (p : str) (s : char) :
  In s seps -> (DocumentParser.rfind s p <= sep_index p)%Z.
Proof.
  unfold separators. destruct altsep as [a|]; cbn [In].
  - intros [<-|[<-|[]]]; lia.
  - intros [<-|[]]. lia.
Qed.

Lemma splitext_unfold (p : str) :
  splitext p =
  if (sep_index p <? DocumentParser.rfind DocumentParser.dotc p)%Z then
    if existsb (fun c => negb (c =? DocumentParser.dotc)%N)
               (DocumentParser.slice p (sep_index p + 1)
                  (DocumentParser.rfind DocumentParser.dotc p))
    then (firstn (Z.to_nat (DocumentParser.rfind DocumentParser.dotc p)) p,
          skipn (Z.to_nat (DocumentParser.rfind DocumentParser.dotc p)) p)
    else (p, [])
  else (p, []).
Proof. reflexivity. Qed.

Lemma parse_document_no_extension (p : str) :
  snd (splitext p) = [] -> parse_document p = [].
Proof.
  intros H. unfold DocumentParser.parse_document. now rewrite H.
Qed.

(** X8: the text handed to the extraction has no surrounding whitespace,
    whatever the decoders return. *)
Theorem X8_parsed_text_is_stripped (file_path : str) :
  strip (parse_document file_path) = parse_document file_path.
Proof.
  unfold DocumentParser.parse_document.
  destruct (str_eqb _ (lit ".pdf")).
  - unfold DocumentParser._parse_pdf.
    destruct (pdf_pages file_path); [apply strip_idem|reflexivity].
  - destruct (str_eqb _ (lit ".html")); [|reflexivity].
    unfold DocumentParser._parse_html.
    destruct (html_get_text file_path); [apply strip_idem|reflexivity].
Qed.

(** X9: a path without a dot has no extension: it gives the empty text and
    no decoder result is used. *)
Theorem X9_path_without_dot (file_path : str) :
  ~ In DocumentParser.dotc file_path ->
  parse_document file_path = [].
Proof.
  intros Hn. apply parse_document_no_extension.
  rewrite splitext_unfold, (rfind_absent _ _ Hn).
  assert (Hlow : (-1 <= sep_index file_path)%Z).
  { pose proof (sep_index_lower file_path sep (or_introl eq_refl)).
    pose proof (rfind_range sep file_path). lia. }
  assert (E : (sep_index file_path <? -1)%Z = false) by (apply Z.ltb_ge; lia).
  now rewrite E.
Qed.

(** X10: a file whose name is a dot followed by letters, such as [".pdf"],
    has no extension: it gives the empty text. *)
Theorem X10_dot_file_has_no_extension (dir name : str) :
  (dir = [] \/ exists d s, dir = d ++ [s] /\ In s seps) ->
  ~ In DocumentParser.dotc seps ->
  ~ In DocumentParser.dotc name ->
  (forall s, In s seps -> ~ In s name) ->
  parse_document (dir ++ DocumentParser.dotc :: name) = [].
Proof.
  intros Hdir Hdot Hname Hseps. apply parse_document_no_extension.
  rewrite splitext_unfold, (rfind_last _ dir name Hname).
  assert (Hclean : forall s, In s seps -> ~ In s (DocumentParser.dotc :: name)).
  { intros s Hs [Hd|Hn]; [apply Hdot; now rewrite Hd|now apply (Hseps s)]. }
  assert (Hidx : sep_index (dir ++ DocumentParser.dotc :: name)
                 = (Z.of_nat (length dir) - 1)%Z).
  { apply Z.le_antisymm.
    - apply sep_index_upper. intros s Hs.
      pose proof (rfind_before s dir _ (Hclean s Hs)). lia.
    - destruct Hdir as [->|(d & s & -> & Hs)].
      + pose proof (sep_index_lower (DocumentParser.dotc :: name) sep
                      (or_introl eq_refl)).
        pose proof (rfind_range sep (DocumentParser.dotc :: name)).
        cbn [app length] in *. lia.
      + pose proof (sep_index_lower
                      ((d ++ [s]) ++ DocumentParser.dotc :: name) s Hs) as Hl.
        rewrite <- app_assoc in Hl. cbn [app] in Hl.
        rewrite (rfind_last s d _ (Hclean s Hs)) in Hl.
        rewrite <- app_assoc. cbn [app].
        rewrite length_app. cbn [length]. lia. }
  rewrite Hidx.
  assert (E : (Z.of_nat (length dir) - 1 <? Z.of_nat (length dir))%Z = true)
    by (apply Z.ltb_lt; lia).
  rewrite E. unfold DocumentParser.slice.
  replace (Z.of_nat (length dir) - (Z.of_nat (length dir) - 1 + 1))%Z
    with 0%Z by lia.
  reflexivity.
Qed.

(** The extension of a path whose last dot follows an ordinary character *)
Lemma splitext_ordinary (pre e : str) (x : char) :
  x <> DocumentParser.dotc ->
  ~ In x seps ->
  ~ In DocumentParser.dotc seps ->
  ~ In DocumentParser.dotc e ->
  (forall s, In s seps -> ~ In s e) ->
  splitext (pre ++ x :: DocumentParser.dotc :: e) =
  (pre ++ [x], DocumentParser.dotc :: e).
Proof.
  intros Hx Hxs Hdot He Hseps.
  set (p := pre ++ x :: DocumentParser.dotc :: e).
  assert (Hp : p = (pre ++ [x]) ++ DocumentParser.dotc :: e).
  { unfold p. now rewrite <- app_assoc. }
  assert (Hd : DocumentParser.rfind DocumentParser.dotc p
               = Z.of_nat (S (length pre))).
  { rewrite Hp, (rfind_last _ _ _ He), length_app. cbn [length]. lia. }
  assert (Hs : (-1 <= sep_index p < Z.of_nat (length pre))%Z).
  { split.
    - pose proof (sep_index_lower p sep (or_introl eq_refl)).
      pose proof (rfind_range sep p). lia.
    - assert (sep_index p <= Z.of_nat (length pre) - 1)%Z; [|lia].
      apply sep_index_upper. intros s Hin.
      assert (Hc : ~ In s (x :: DocumentParser.dotc :: e)).
      { intros [H|[H|H]].
        - apply Hxs. now rewrite H.
        - apply Hdot. now rewrite H.
        - now apply (Hseps s). }
      pose proof (rfind_before s pre _ Hc). unfold p. lia. }
  rewrite splitext_unfold. fold p. rewrite Hd.
  assert (E : (sep_index p <? Z.of_nat (S (length pre)))%Z = true)
    by (apply Z.ltb_lt; lia).
  rewrite E.
  assert (Hex : existsb (fun c => negb (c =? DocumentParser.dotc)%N)
                  (DocumentParser.slice p (sep_index p + 1)
                                        (Z.of_nat (S (length pre)))) = true).
  { apply existsb_exists. exists x. split.
    - unfold DocumentParser.slice.
      set (k := Z.to_nat (sep_index p + 1)).
      assert (Hk : k <= length pre) by (unfold k; lia).
      replace (Z.to_nat (Z.of_nat (S (length pre)) - (sep_index p + 1)))
        with (length (skipn k pre) + 1) by (rewrite length_skipn; unfold k; lia).
      unfold p. rewrite skipn_app.
      replace (k - length pre) with 0 by lia. cbn [skipn].
      rewrite firstn_app, firstn_all2 by lia.
      replace (length (skipn k pre) + 1 - length (skipn k pre)) with 1 by lia.
      apply in_or_app. right. now left.
    - apply negb_true_iff. now apply N.eqb_neq. }
  rewrite Hex, Nat2Z.id. f_equal.
  - rewrite Hp, firstn_app.
    replace (S (length pre)) with (length (pre ++ [x]))
      by (rewrite length_app; cbn [length]; lia).
    rewrite firstn_all, Nat.sub_diag. cbn [firstn]. apply app_nil_r.
  - rewrite Hp, skipn_app.
    replace (S (length pre)) with (length (pre ++ [x]))
      by (rewrite length_app; cbn [length]; lia).
    now rewrite skipn_all, Nat.sub_diag.
Qed.

(** X11: the decoder is chosen by the text after the last dot of the file
    name, whatever its case: [pdf] gives the stripped page texts joined by
    newlines, [html] the stripped text of the page, a decoder that raises
    gives the empty text, and any other extension gives the empty text. *)
Theorem X11_decoder_chosen_by_extension (pre e : str) (x : char) :
  x <> DocumentParser.dotc ->
  ~ In x seps ->
  ~ In DocumentParser.dotc seps ->
  ~ In DocumentParser.dotc e ->
  (forall s, In s seps -> ~ In s e) ->
  let file_path := pre ++ x :: DocumentParser.dotc :: e in
  (DocumentParser.lower e = lit "pdf" ->
   parse_document file_path =
   match pdf_pages file_path with
   | Some pages => strip (join [nl] pages)
   | None => []
   end) /\
  (DocumentParser.lower e = lit "html" ->
   parse_document file_path =
   match html_get_text file_path with
   | Some text => strip text
   | None => []
   end) /\
  (DocumentParser.lower e <> lit "pdf" ->
   DocumentParser.lower e <> lit "html" ->
   parse_document file_path = []).
Proof.
  intros Hx Hxs Hdot He Hseps file_path.
  assert (Hpd : parse_document file_path =
                if str_eqb (DocumentParser.dotc :: DocumentParser.lower e)
                           (lit ".pdf")
                then DocumentParser._parse_pdf pdf_pages file_path
                else if str_eqb (DocumentParser.dotc :: DocumentParser.lower e)
                                (lit ".html")
                     then DocumentParser._parse_html html_get_text file_path
                     else []).
  { unfold DocumentParser.parse_document, file_path.
    now rewrite (splitext_ordinary pre e x Hx Hxs Hdot He Hseps). }
  rewrite Hpd. repeat split.
  - intros ->. reflexivity.
  - intros ->. reflexivity.
  - intros Hpdf Hhtml.
    rewrite str_eqb_neq by (intros H; apply Hpdf; now inversion H).
    rewrite str_eqb_neq by (intros H; apply Hhtml; now inversion H).
    reflexivity.
Qed.
End ParseFacts.

Lemma X9_witness :
  DocumentParser.parse_document 47%N None
    (fun _ => Some [lit "page"]) (fun _ => Some (lit "text"))
    (lit "docs/README") = [].
Proof.
  apply (X9_path_without_dot 47%N None).
  vm_compute. intuition discriminate.
Defined.

Lemma X10_witness :
  DocumentParser.parse_document 92%N (Some 47%N)
    (fun _ => Some [lit "page"]) (fun _ => Some (lit "text"))
    (lit "docs/" ++ DocumentParser.dotc :: lit "pdf") = [].
Proof.
  apply (X10_dot_file_has_no_extension 92%N (Some 47%N)).
  - right. exists (lit "docs"), 47%N. split; [reflexivity|].
    right. now left.
  - vm_compute. intuition discriminate.
  - vm_compute. intuition discriminate.
  - intros s Hs. vm_compute in Hs. vm_compute.
    destruct Hs as [<-|[<-|[]]]; intuition discriminate.
Defined.

Lemma X11_witness :
  DocumentParser.parse_document 92%N (Some 47%N)
    (fun _ => Some [lit " Name: Dell"; lit "Price: 500 "])
    (fun _ => Some (lit "text"))
    (lit "docs/spec" ++ 115%N :: DocumentParser.dotc :: lit "PDF") =
  lit "Name: Dell" ++ nl :: lit "Price: 500".
Proof.
  destruct (X11_decoder_chosen_by_extension 92%N (Some 47%N)
              (fun _ => Some [lit " Name: Dell"; lit "Price: 500 "])
              (fun _ => Some (lit "text"))
              (lit "docs/spec") (lit "PDF") 115%N) as (Hpdf & _ & _).
  - discriminate.
  - vm_compute. intuition discriminate.
  - vm_compute. intuition discriminate.
  - vm_compute. intuition discriminate.
  - intros s Hs. vm_compute in Hs. vm_compute.
    destruct Hs as [<-|[<-|[]]]; intuition discriminate.
  - exact (Hpdf eq_refl).
Defined.

(** ** add_documents and query *)

Lemma dict_set_same_value {V : Type} (i : nat) (v : V) (d : dict nat V) :
  dict_get Nat.eqb i d = Some v -> dict_set Nat.eqb i v d = d.
Proof.
  induction d as [|[j w] d IH]; cbn [dict_get dict_set]; [discriminate|].
  destruct (Nat.eqb i j) eqn:E.
  - intros H. inversion H. reflexivity.
  - intros H. now rewrite IH.
Qed.

Lemma keys_length {V : Type} (d : dict nat V) (n : nat) :
  keys d = seq 0 n -> length d = n.
Proof.
  intros H. rewrite <- (length_map fst). fold (keys d).
  rewrite H. apply length_seq.
Qed.

Lemma NoDup_firstn {A : Type} (m : nat) (l : list A) :
  NoDup l -> NoDup (firstn m l).
Proof.
  intros H. rewrite <- (firstn_skipn m l) in H.
  now apply NoDup_app_remove_r in H.
Qed.

Lemma firstn_seq (m a n : nat) : firstn m (seq a n) = seq a (Nat.min m n).
Proof.
  revert a n. induction m as [|m IH]; intros a [|n]; cbn; try reflexivity.
  now rewrite IH.
Qed.

Lemma slice_to_firstn {A : Type} (l : list A) (k : Z) :
  exists m, RAGModel.slice_to l k = firstn m l.
Proof. unfold RAGModel.slice_to. destruct (k <? 0)%Z; eexists; reflexivity. Qed.

Section RetrievalMore.
Variables vec score : Type.
Variable encode : str -> vec.
Variable cosine_similarity : vec -> vec -> score.
Variable score_ltb : score -> score -> bool.

Local Abbreviation state := (RAGModel.state vec).
Local Abbreviation add_documents := (RAGModel.add_documents encode).
Local Abbreviation sorted_desc := (RAGModel.sorted_desc score_ltb).
Local Abbreviation sorted_docs :=
  (RAGModel.sorted_docs encode cosine_similarity score_ltb).
Local Abbreviation query := (RAGModel.query encode cosine_similarity score_ltb).
Local Abbreviation reachable := (RAGModel.reachable encode).
Local Abbreviation representative := RAGModel.representative.
Local Abbreviation document_embeddings := (@RAGModel.document_embeddings vec).
Local Abbreviation documents := (@RAGModel.documents vec).
Local Abbreviation stored_at := (@RetrievalSpec.stored_at vec score).
Local Abbreviation scored := (RetrievalSpec.scored encode cosine_similarity).
Local Abbreviation indexed := (@RetrievalSpec.indexed vec).

Lemma add_documents_beyond (st : state) (docs : list Record) (i : nat) :
  length docs <= i ->
  dict_get Nat.eqb i (documents (add_documents st docs)) =
    dict_get Nat.eqb i (documents st) /\
  dict_get Nat.eqb i (document_embeddings (add_documents st docs)) =
    dict_get Nat.eqb i (document_embeddings st).
Proof.
  intros Hi.
  assert (Hn : ~ In i (map fst (RAGModel.enumerate docs))).
  { unfold RAGModel.enumerate. rewrite combine_seq_keys, in_seq. lia. }
  rewrite (add_documents_documents vec encode),
          (add_documents_embeddings vec encode).
  split; now apply set_all_get_other.
Qed.

(** X12: [add_documents] writes by position and removes nothing: the
    entries at positions from the length of the new list on are those of
    the state before the call. *)
Theorem X12_add_keeps_later_positions
  (st : state) (docs : list Record) (i : nat) :
  length docs <= i ->
  dict_get Nat.eqb i (documents (add_documents st docs)) =
    dict_get Nat.eqb i (documents st) /\
  dict_get Nat.eqb i (document_embeddings (add_documents st docs)) =
    dict_get Nat.eqb i (document_embeddings st).
Proof. apply add_documents_beyond. Qed.

(** X13: after [add_documents] the model holds as many entries as the
    longer of the stored sequence and the new list, the same number of
    embeddings as of records. *)
Theorem X13_number_of_entries (st : state) (docs : list Record) :
  reachable st ->
  length (documents (add_documents st docs)) =
    Nat.max (length (documents st)) (length docs) /\
  length (document_embeddings (add_documents st docs)) =
    Nat.max (length (documents st)) (length docs).
Proof.
  intros Hr. destruct (reachable_indexed vec encode st Hr) as [n Hidx].
  pose proof (add_documents_indexed vec encode st docs n Hidx) as [He Hd].
  destruct Hidx as [_ Hd0]. rewrite (keys_length _ _ Hd0).
  split; now apply keys_length.
Qed.

(** X14: in every state of the model, the embedding stored under an index
    is the embedding of the representative string of the record stored
    under that index. *)
Theorem X14_embedding_matches_record (st : state) (i : nat) (r : Record) :
  reachable st ->
  dict_get Nat.eqb i (documents st) = Some r ->
  dict_get Nat.eqb i (document_embeddings st) =
    Some (encode (representative r)).
Proof.
  intros Hr. revert i r. induction Hr as [|st docs _ IH]; intros i r Hget.
  - discriminate.
  - destruct (nth_error docs i) as [c|] eqn:E.
    + destruct (add_documents_get vec encode st docs i c E) as [He Hd].
      rewrite Hd in Hget. inversion Hget; subst. exact He.
    + apply nth_error_None in E.
      destruct (add_documents_beyond st docs i E) as [Hd He].
      rewrite He. apply IH. now rewrite <- Hd.
Qed.

Lemma add_step_fixed (st : state) (l : list (nat * Record)) :
  (forall i c, In (i, c) l ->
               dict_get Nat.eqb i (document_embeddings st) =
                 Some (encode (representative c)) /\
               dict_get Nat.eqb i (documents st) = Some c) ->
  fold_left (RAGModel.add_step encode) l st = st.
Proof.
  induction l as [|[i c] l IH]; intros H; [reflexivity|].
  cbn [fold_left].
  assert (Hstep : RAGModel.add_step encode st (i, c) = st).
  { destruct (H i c (or_introl eq_refl)) as [He Hd].
    unfold RAGModel.add_step.
    rewrite (dict_set_same_value _ _ _ He), (dict_set_same_value _ _ _ Hd).
    now destruct st. }
  rewrite Hstep. apply IH. intros j c' Hin. apply H. now right.
Qed.

(** X15: adding the same list again changes nothing. *)
Theorem X15_add_twice (st : state) (docs : list Record) :
  add_documents (add_documents st docs) docs = add_documents st docs.
Proof.
  unfold RAGModel.add_documents at 1. apply add_step_fixed.
  intros i c Hin.
  assert (Hnd : NoDup (map fst (RAGModel.enumerate docs))).
  { unfold RAGModel.enumerate. rewrite combine_seq_keys. apply seq_NoDup. }
  rewrite (add_documents_documents vec encode),
          (add_documents_embeddings vec encode).
  split.
  - apply (set_all_get (fun c => encode (representative c)) _ _ i c Hnd Hin).
  - apply (set_all_get (fun c : Record => c) _ _ i c Hnd Hin).
Qed.

Lemma collect_firstn (st : state) (l : list (nat * score)) :
  forall (rs : list Record) (m : nat),
    RAGModel.collect st l = RAGModel.Ok rs ->
    RAGModel.collect st (firstn m l) = RAGModel.Ok (firstn m rs).
Proof.
  induction l as [|[i s] l IH]; intros rs m H.
  - cbn in H. inversion H. now destruct m.
  - destruct m as [|m]; [reflexivity|]. cbn [firstn RAGModel.collect] in *.
    destruct (dict_get Nat.eqb i (documents st)) as [r|]; [|discriminate].
    destruct (RAGModel.collect st l) as [rs'|] eqn:E; [|discriminate].
    inversion H; subst. now rewrite (IH rs' m eq_refl).
Qed.

(** X16: a smaller [top_k] gives the beginning of the answer to a larger
    one: the best [k] records are the first [k] of the best [k']. *)
Theorem X16_smaller_top_k_is_a_prefix
  (st : state) (question : str) (k k' : Z) :
  reachable st ->
  (0 <= k <= k')%Z ->
  exists recs,
    query st question k' = RAGModel.Ok recs /\
    query st question k = RAGModel.Ok (firstn (Z.to_nat k) recs).
Proof.
  intros Hr Hk.
  destruct (query_ok vec score encode cosine_similarity score_ltb
              st question k' Hr) as (recs & Hq & _).
  exists recs. split; [exact Hq|].
  unfold RAGModel.query, RAGModel.slice_to in *.
  assert (E : (k <? 0)%Z = false) by (apply Z.ltb_ge; lia).
  assert (E' : (k' <? 0)%Z = false) by (apply Z.ltb_ge; lia).
  rewrite E. rewrite E' in Hq.
  replace (firstn (Z.to_nat k) (sorted_docs st question))
    with (firstn (Z.to_nat k)
                 (firstn (Z.to_nat k') (sorted_docs st question))).
  - now apply collect_firstn.
  - rewrite firstn_firstn. f_equal. lia.
Qed.

Lemma scored_keys (st : state) (question : str) :
  map fst (scored st question) = keys (document_embeddings st).
Proof. unfold RetrievalSpec.scored. rewrite map_map. reflexivity. Qed.

Lemma Forall2_map_fst (st : state) (rs : list Record) (l : list (nat * score)) :
  Forall2 (stored_at st) rs l ->
  Forall2 (fun r i => dict_get Nat.eqb i (documents st) = Some r)
          rs (map fst l).
Proof. induction 1; cbn [map]; constructor; assumption. Qed.

(** X17: whatever [top_k] is, [query] returns records that are stored,
    under indices that are pairwise different: no entry is returned
    twice and nothing is returned that was not added. *)
Theorem X17_results_are_distinct_entries
  (st : state) (question : str) (top_k : Z) (recs : list Record) :
  reachable st ->
  query st question top_k = RAGModel.Ok recs ->
  exists indices,
    NoDup indices /\
    Forall2 (fun r i => dict_get Nat.eqb i (documents st) = Some r)
            recs indices.
Proof.
  intros Hr Hq.
  destruct (query_ok vec score encode cosine_similarity score_ltb
              st question top_k Hr) as (recs' & Hq' & Hf).
  rewrite Hq in Hq'. inversion Hq'; subst recs'.
  destruct (reachable_indexed vec encode st Hr) as [n Hidx].
  exists (map fst (RAGModel.slice_to (sorted_docs st question) top_k)).
  split; [|now apply Forall2_map_fst].
  destruct (slice_to_firstn (sorted_docs st question) top_k) as [m ->].
  rewrite <- firstn_map. apply NoDup_firstn.
  unfold RAGModel.sorted_docs.
  rewrite (similarities_scored vec score encode cosine_similarity st question n Hidx).
  apply (Permutation_NoDup
           (Permutation_map fst (Permutation_sym (sorted_desc_perm score score_ltb _)))).
  rewrite scored_keys. destruct Hidx as [He _]. rewrite He. apply seq_NoDup.
Qed.

Lemma sorted_desc_ties (l : list (nat * score)) :
  (forall x y, In x l -> In y l -> score_ltb (snd x) (snd y) = false) ->
  sorted_desc l = l.
Proof.
  induction l as [|x l IH]; intros H; [reflexivity|].
  cbn [RAGModel.sorted_desc]. rewrite IH.
  - destruct l as [|y l]; [reflexivity|]. cbn [RAGModel.insert_desc].
    now rewrite (H x y (or_introl eq_refl) (or_intror (or_introl eq_refl))).
  - intros a b Ha Hb. apply H; now right.
Qed.

(** X18: when no stored entry scores lower than another, for instance when
    all embeddings are equal, the answer is the stored records in the
    order of their indices: the records at [0], [1], and so on. *)
Theorem X18_ties_keep_insertion_order
  (st : state) (question : str) (top_k : Z) :
  reachable st ->
  (0 <= top_k)%Z ->
  (forall x y, In x (scored st question) -> In y (scored st question) ->
               score_ltb (snd x) (snd y) = false) ->
  exists recs,
    query st question top_k = RAGModel.Ok recs /\
    Forall2 (fun r i => dict_get Nat.eqb i (documents st) = Some r)
            recs
            (seq 0 (Nat.min (Z.to_nat top_k) (length (documents st)))).
Proof.
  intros Hr Hk Hties.
  destruct (query_ok vec score encode cosine_similarity score_ltb
              st question top_k Hr) as (recs & Hq & Hf).
  exists recs. split; [exact Hq|].
  destruct (reachable_indexed vec encode st Hr) as [n Hidx].
  apply Forall2_map_fst in Hf.
  unfold RAGModel.slice_to in Hf.
  assert (E : (top_k <? 0)%Z = false) by (apply Z.ltb_ge; lia).
  rewrite E in Hf. unfold RAGModel.sorted_docs in Hf.
  rewrite (similarities_scored vec score encode cosine_similarity st question n Hidx),
          (sorted_desc_ties _ Hties), <- firstn_map, scored_keys in Hf.
  destruct Hidx as [He Hd]. rewrite He in Hf.
  rewrite (keys_length _ _ Hd).
  now rewrite firstn_seq in Hf.
Qed.
End RetrievalMore.

Lemma X12_witness :
  dict_get Nat.eqb 1
    (RAGModel.documents
       (Stub.add_documents (Stub.add_documents Stub.init [Stub.dell; Stub.hp])
                           [Stub.plain])) =
  dict_get Nat.eqb 1
    (RAGModel.documents (Stub.add_documents Stub.init [Stub.dell; Stub.hp])) /\
  dict_get Nat.eqb 1
    (RAGModel.document_embeddings
       (Stub.add_documents (Stub.add_documents Stub.init [Stub.dell; Stub.hp])
                           [Stub.plain])) =
  dict_get Nat.eqb 1
    (RAGModel.document_embeddings
       (Stub.add_documents Stub.init [Stub.dell; Stub.hp])).
Proof.
  apply (X12_add_keeps_later_positions str Stub.encode
           (Stub.add_documents Stub.init [Stub.dell; Stub.hp]) [Stub.plain] 1).
  cbn. lia.
Defined.

Lemma X13_witness :
  length (RAGModel.documents
            (Stub.add_documents
               (Stub.add_documents Stub.init [Stub.dell; Stub.hp])
               [Stub.plain])) = 2 /\
  length (RAGModel.document_embeddings
            (Stub.add_documents
               (Stub.add_documents Stub.init [Stub.dell; Stub.hp])
               [Stub.plain])) = 2.
Proof.
  apply (X13_number_of_entries str Stub.encode
           (Stub.add_documents Stub.init [Stub.dell; Stub.hp]) [Stub.plain]).
  apply RAGModel.reach_add. apply RAGModel.reach_init.
Defined.

Lemma X14_witness :
  dict_get Nat.eqb 1
    (RAGModel.document_embeddings
       (Stub.add_documents Stub.init [Stub.dell; Stub.hp])) =
  Some (Stub.encode (RAGModel.representative Stub.hp)).
Proof.
  apply (X14_embedding_matches_record str Stub.encode
           (Stub.add_documents Stub.init [Stub.dell; Stub.hp]) 1 Stub.hp).
  - apply RAGModel.reach_add. apply RAGModel.reach_init.
  - reflexivity.
Defined.

Lemma X16_witness :
  exists recs,
    Stub.query (Stub.add_documents Stub.init [Stub.dell; Stub.hp])
               (lit "Name: HP") 2 = RAGModel.Ok recs /\
    Stub.query (Stub.add_documents Stub.init [Stub.dell; Stub.hp])
               (lit "Name: HP") 1 = RAGModel.Ok (firstn 1 recs).
Proof.
  apply (X16_smaller_top_k_is_a_prefix str Z Stub.encode
           Stub.cosine_similarity Stub.score_ltb
           (Stub.add_documents Stub.init [Stub.dell; Stub.hp])
           (lit "Name: HP") 1%Z 2%Z).
  - apply RAGModel.reach_add. apply RAGModel.reach_init.
  - lia.
Defined.

Lemma X17_witness :
  exists indices,
    NoDup indices /\
    Forall2
      (fun r i =>
         dict_get Nat.eqb i
           (RAGModel.documents
              (Stub.add_documents Stub.init [Stub.dell; Stub.hp])) = Some r)
      [Stub.hp; Stub.dell] indices.
Proof.
  apply (X17_results_are_distinct_entries str Z Stub.encode
           Stub.cosine_similarity Stub.score_ltb
           (Stub.add_documents Stub.init [Stub.dell; Stub.hp])
           (lit "Name: HP") 3%Z [Stub.hp; Stub.dell]).
  - apply RAGModel.reach_add. apply RAGModel.reach_init.
  - reflexivity.
Defined.

Lemma X18_witness :
  exists recs,
    Stub.query (Stub.add_documents Stub.init [Stub.plain; Stub.noted])
               (lit "a: b") 3 = RAGModel.Ok recs /\
    Forall2
      (fun r i =>
         dict_get Nat.eqb i
           (RAGModel.documents
              (Stub.add_documents Stub.init [Stub.plain; Stub.noted])) = Some r)
      recs [0; 1].
Proof.
  apply (X18_ties_keep_insertion_order str Z Stub.encode
           Stub.cosine_similarity Stub.score_ltb
           (Stub.add_documents Stub.init [Stub.plain; Stub.noted])
           (lit "a: b") 3%Z).
  - apply RAGModel.reach_add. apply RAGModel.reach_init.
  - lia.
  - intros x y Hx Hy. vm_compute in Hx, Hy.
    destruct Hx as [<-|[<-|[]]]; destruct Hy as [<-|[<-|[]]]; reflexivity.
Defined.

(** ** save_to_json *)

Section JsonMore.
Import Json.
Local Open Scope N_scope.

Lemma hexdigit_plain (d : N) : d < 16 -> plain_ascii (hexdigit d).
Proof.
  intros H. right. unfold hexdigit. destruct (d <? 10) eqn:E.
  - apply N.ltb_lt in E. lia.
  - apply N.ltb_ge in E. lia.
Qed.

(** Closes a goal on a list of character constants. *)
Ltac plain_constants :=
  repeat (apply Forall_cons; [right; cbv; split; discriminate|]);
  try apply Forall_nil.

Lemma u_escape_plain (n : N) : Forall plain_ascii (u_escape n).
Proof.
  unfold u_escape, hex4.
  apply Forall_cons; [right; cbv; split; discriminate|].
  apply Forall_cons; [right; cbv; split; discriminate|].
  repeat (apply Forall_cons;
          [apply hexdigit_plain; apply N.mod_lt; discriminate|]).
  apply Forall_nil.
Qed.

Lemma escape_char_plain (c : char) : Forall plain_ascii (escape_char c).
Proof.
  unfold escape_char.
  destruct (c =? quote); [plain_constants|].
  destruct (c =? backslash); [plain_constants|].
  destruct (c =? 10); [plain_constants|].
  destruct (c =? 13); [plain_constants|].
  destruct (c =? 9); [plain_constants|].
  destruct (c =? 8); [plain_constants|].
  destruct (c =? 12); [plain_constants|].
  destruct ((32 <=? c) && (c <=? 126)) eqn:E.
  - apply andb_true_iff in E. destruct E as [H1 H2].
    apply N.leb_le in H1, H2.
    apply Forall_cons; [right; now split|apply Forall_nil].
  - destruct (c <? 65536); [apply u_escape_plain|].
    cbv zeta. apply Forall_app. split; apply u_escape_plain.
Qed.

Lemma encoded_plain (s : str) : Forall plain_ascii (encode_basestring_ascii s).
Proof.
  unfold encode_basestring_ascii.
  apply Forall_cons; [right; cbv; split; discriminate|].
  apply Forall_app. split; [|plain_constants].
  induction s as [|c s IH]; [constructor|].
  cbn [flat_map]. apply Forall_app. split; [apply escape_char_plain|exact IH].
Qed.

Lemma newline_indent_plain (level : nat) :
  Forall plain_ascii (newline_indent level).
Proof.
  unfold newline_indent. apply Forall_cons; [now left|].
  induction (4 * level)%nat as [|n IH]; [constructor|].
  cbn [repeat]. apply Forall_cons; [right; cbv; split; discriminate|exact IH].
Qed.

Lemma item_separator_plain (level : nat) :
  Forall plain_ascii (item_separator level).
Proof.
  unfold item_separator.
  apply Forall_cons; [right; cbv; split; discriminate|].
  apply newline_indent_plain.
Qed.

Lemma dict_items_plain (level : nat) (r : Record) (first : bool) :
  Forall plain_ascii (dict_items level first r).
Proof.
  revert first. induction r as [|[k v] r IH]; intros first; [constructor|].
  cbn [dict_items]. repeat (apply Forall_app; split).
  - destruct first; [constructor|apply item_separator_plain].
  - apply encoded_plain.
  - plain_constants.
  - apply encoded_plain.
  - apply IH.
Qed.

Lemma iterencode_dict_plain (r : Record) (level : nat) :
  Forall plain_ascii (iterencode_dict r level).
Proof.
  destruct r as [|kv r]; [unfold iterencode_dict; plain_constants|].
  unfold iterencode_dict.
  apply Forall_cons; [right; cbv; split; discriminate|].
  apply Forall_app. split; [apply newline_indent_plain|].
  apply Forall_app. split; [apply dict_items_plain|].
  apply Forall_app. split; [apply newline_indent_plain|plain_constants].
Qed.

Lemma list_items_plain (level : nat) (data : list Record) (first : bool) :
  Forall plain_ascii (list_items level first data).
Proof.
  revert first. induction data as [|r data IH]; intros first; [constructor|].
  cbn [list_items]. repeat (apply Forall_app; split).
  - destruct first; [constructor|apply item_separator_plain].
  - apply iterencode_dict_plain.
  - apply IH.
Qed.

(** X19: the written file is plain ASCII whatever the records hold: every
    character is a newline or a printable character from the space to the
    tilde; all other characters of keys and values are escaped. *)
Theorem X19_json_file_is_ascii (data : list Record) :
  Forall plain_ascii (save_to_json data).
Proof.
  unfold save_to_json, dump, iterencode_list.
  destruct data as [|r data]; [plain_constants|].
  apply Forall_cons; [right; cbv; split; discriminate|].
  apply Forall_app. split; [apply newline_indent_plain|].
  apply Forall_app. split; [apply list_items_plain|].
  apply Forall_app. split; [apply newline_indent_plain|plain_constants].
Qed.

Lemma record_value_inj (r r' : Record) :
  record_value r = record_value r' -> r = r'.
Proof.
  unfold record_value. intros H. inversion H as [Hm]. clear H.
  revert r' Hm. induction r as [|[k v] r IH]; intros [|[k' v'] r'] Hm;
    try discriminate; [reflexivity|].
  cbn [map fst snd] in Hm. inversion Hm as [[Hk Hv Hr]]. subst.
  f_equal. apply IH. exact Hr.
Qed.

Lemma records_value_inj (d d' : list Record) :
  records_value d = records_value d' -> d = d'.
Proof.
  unfold records_value. intros H. inversion H as [Hm]. clear H.
  revert d' Hm. induction d as [|r d IH]; intros [|r' d'] Hm;
    try discriminate; [reflexivity|].
  cbn [map] in Hm.
  assert (Hr : record_value r = record_value r') by congruence.
  assert (Hd : map record_value d = map record_value d') by congruence.
  f_equal; [now apply record_value_inj|now apply IH].
Qed.

(** X20: different lists of records give different files: for records
    whose strings hold no high surrogate directly before a low surrogate,
    the written text determines the list of records. *)
Theorem X20_json_file_determines_records (d d' : list Record) :
  Forall record_safe d -> Forall record_safe d' ->
  save_to_json d = save_to_json d' -> d = d'.
Proof.
  intros Hd Hd' Heq. apply records_value_inj.
  pose proof (loads_dump d Hd) as H1. pose proof (loads_dump d' Hd') as H2.
  unfold save_to_json in Heq. rewrite Heq, H2 in H1. congruence.
Qed.
End JsonMore.

Lemma X20_witness : [Stub.dell; Stub.noted] = [Stub.dell; Stub.noted].
Proof.
  apply (X20_json_file_determines_records
           [Stub.dell; Stub.noted] [Stub.dell; Stub.noted]).
  - repeat (apply Forall_cons; [apply record_safeb_sound; reflexivity|]).
    apply Forall_nil.
  - repeat (apply Forall_cons; [apply record_safeb_sound; reflexivity|]).
    apply Forall_nil.
  - reflexivity.
Defined.

(** ** main *)

Lemma set_all_fresh {V W : Type} (f : W -> V) (vals : list W) :
  forall (a : nat) (d : dict nat V),
    keys d = seq 0 a ->
    set_all f (combine (seq a (length vals)) vals) d =
    d ++ map (fun iw => (fst iw, f (snd iw)))
             (combine (seq a (length vals)) vals).
Proof.
  induction vals as [|w vals IH]; intros a d Hk.
  - cbn. now rewrite app_nil_r.
  - cbn [length seq combine map fst snd].
    change (set_all f ((a, w) :: combine (seq (S a) (length vals)) vals) d)
      with (set_all f (combine (seq (S a) (length vals)) vals)
                    (dict_set Nat.eqb a (f w) d)).
    assert (Hnew : dict_get Nat.eqb a d = None)
      by (apply (keys_seq_get d a a Hk); lia).
    rewrite (dict_set_new Nat.eqb _ _ _ Hnew), IH.
    + now rewrite <- app_assoc.
    + unfold keys in *. rewrite map_app, Hk, seq_S. reflexivity.
Qed.

Lemma combine_seq_values {A : Type} (l : list A) (a : nat) :
  map snd (combine (seq a (length l)) l) = l.
Proof.
  revert a. induction l as [|x l IH]; intros a; [reflexivity|].
  cbn [length seq combine map snd]. now rewrite IH.
Qed.

Section MainFacts.
Variable sep : char.
Variable altsep : option char.
Variable pdf_pages : str -> option (list str).
Variable html_get_text : str -> option str.
Variable vec : Type.
Variable writable : bool.
Variable encode : str -> option vec.

Local Abbreviation parse_document :=
  (DocumentParser.parse_document sep altsep pdf_pages html_get_text).
Local Abbreviation main :=
  (Main.main sep altsep pdf_pages html_get_text writable encode).
Local Abbreviation encoded :=
  (fun (r : Record) (e : vec) => encode (RAGModel.representative r) = Some e).

(** With a model that never raises, the loop of [Main.add_documents] is
    [RAGModel.add_documents]. *)
Lemma add_documents_never_raising (enc : str -> vec) :
  (forall text, encode text = Some (enc text)) ->
  forall (docs : list Record) (st : RAGModel.state vec),
    Main.add_documents encode st (RAGModel.enumerate docs) =
    (RAGModel.add_documents enc st docs, true).
Proof.
  intros Henc docs st. unfold RAGModel.add_documents.
  generalize (RAGModel.enumerate docs) as items. intros items. revert st.
  induction items as [|[index content] items IH]; intros st; [reflexivity|].
  cbn [Main.add_documents fold_left RAGModel.add_step].
  rewrite Henc. apply IH.
Qed.

(** The loop of [Main.add_documents] over fresh positions appends the
    first [k] records and their embeddings, [k] being the position of
    the first record at which the model raises, or the number of
    records. *)
Lemma add_documents_prefix (docs : list Record) :
  forall (a : nat) (st : RAGModel.state vec),
    keys (RAGModel.document_embeddings st) = seq 0 a ->
    keys (RAGModel.documents st) = seq 0 a ->
    exists (k : nat) (es : list vec),
      k <= length docs /\
      Forall2 encoded (firstn k docs) es /\
      fst (Main.add_documents encode st (combine (seq a (length docs)) docs)) =
        RAGModel.mkState
          (RAGModel.document_embeddings st ++ combine (seq a k) es)
          (RAGModel.documents st ++ combine (seq a k) (firstn k docs)) /\
      (snd (Main.add_documents encode st (combine (seq a (length docs)) docs))
         = true -> k = length docs) /\
      (snd (Main.add_documents encode st (combine (seq a (length docs)) docs))
         = false ->
       exists r, nth_error docs k = Some r /\
                 encode (RAGModel.representative r) = None).
Proof.
  induction docs as [|c docs IH]; intros a st He Hd.
  - exists 0, []. cbn. rewrite !app_nil_r. destruct st.
    split; [lia|]. split; [constructor|]. split; [reflexivity|].
    split; [reflexivity|discriminate].
  - cbn [length seq combine Main.add_documents].
    destruct (encode (RAGModel.representative c)) as [e|] eqn:Henc.
    + assert (Hne : dict_get Nat.eqb a (RAGModel.document_embeddings st) = None)
        by (apply (keys_seq_get _ a a He); lia).
      assert (Hnd : dict_get Nat.eqb a (RAGModel.documents st) = None)
        by (apply (keys_seq_get _ a a Hd); lia).
      rewrite (dict_set_new Nat.eqb _ _ _ Hne), (dict_set_new Nat.eqb _ _ _ Hnd).
      destruct (IH (S a)
                   (RAGModel.mkState
                      (RAGModel.document_embeddings st ++ [(a, e)])
                      (RAGModel.documents st ++ [(a, c)])))
        as (k & es & Hk & Hes & Hst & Hfin & Hraise).
      * cbn [RAGModel.document_embeddings]. unfold keys in *.
        rewrite map_app, He, seq_S. reflexivity.
      * cbn [RAGModel.documents]. unfold keys in *.
        rewrite map_app, Hd, seq_S. reflexivity.
      * exists (S k), (e :: es).
        cbn [RAGModel.document_embeddings RAGModel.documents] in Hst.
        cbn [firstn seq combine nth_error].
        split; [lia|]. split; [now constructor|].
        split; [rewrite Hst, <- !app_assoc; reflexivity|].
        split; [intros H; f_equal; now apply Hfin|exact Hraise].
    + exists 0, []. cbn. rewrite !app_nil_r. destruct st.
      split; [lia|]. split; [constructor|]. split; [reflexivity|].
      split; [discriminate|]. intros _. now exists c.
Qed.

(** X21: whatever is raised, the index a run of [main] leaves holds the
    records of the first [m] paths and nothing else, each under the
    position of its path and with the embedding of its representative
    string; [m] is the number of paths when the [except] branch is not
    taken; when it is taken, either the file could not be written and
    the index is empty, or the model raised at the record of path [m]. *)
Theorem X21_main_indexes_first_paths (document_paths : list str) :
  let result := main document_paths in
  let records :=
    map (fun path => extract_information (parse_document path))
        document_paths in
  exists (m : nat) (embeddings : list vec),
    m <= length document_paths /\
    RAGModel.documents (Main.rag_model result) =
      combine (seq 0 m) (firstn m records) /\
    RAGModel.document_embeddings (Main.rag_model result) =
      combine (seq 0 m) embeddings /\
    Forall2 encoded (firstn m records) embeddings /\
    (Main.caught result = false -> m = length document_paths) /\
    (Main.caught result = true ->
     (writable = false /\ m = 0) \/
     (exists r, nth_error records m = Some r /\
                encode (RAGModel.representative r) = None)).
Proof.
  intros result records. unfold result, Main.main.
  rewrite map_map. fold records.
  destruct writable.
  - unfold RAGModel.enumerate.
    destruct (add_documents_prefix records 0 (RAGModel.init vec)
                eq_refl eq_refl)
      as (k & es & Hk & Hes & Hst & Hfin & Hraise).
    destruct (Main.add_documents encode (RAGModel.init vec)
                (combine (seq 0 (length records)) records))
      as [rag finished].
    cbn [fst snd] in *. subst rag.
    cbn [Main.rag_model Main.caught RAGModel.documents
         RAGModel.document_embeddings RAGModel.init app].
    exists k, es. unfold records in Hk. rewrite length_map in Hk.
    repeat split; try assumption.
    + intros H. apply negb_false_iff in H. rewrite (Hfin H).
      unfold records. now rewrite length_map.
    + intros H. apply negb_true_iff in H. right. now apply Hraise.
  - exists 0, []. cbn.
    split; [lia|]. split; [reflexivity|]. split; [reflexivity|].
    split; [constructor|]. split; [discriminate|]. intros _. now left.
Qed.

(** X22: the file and the index of a run of [main].  When the file is
    written it holds the records of all the paths: reading it back gives
    them, for texts with no high surrogate directly before a low one;
    the records of the index, in the order of their indices, are then
    the first of these, and all of them when the [except] branch is not
    taken.  When the file could not be written the index is empty and
    the [except] branch is taken. *)
Theorem X22_main_file_and_index (document_paths : list str) :
  (forall path, In path document_paths -> json_safe (parse_document path)) ->
  let result := main document_paths in
  let records :=
    map (fun path => extract_information (parse_document path))
        document_paths in
  let indexed_records := map snd (RAGModel.documents (Main.rag_model result)) in
  match Main.json_file result with
  | Some file =>
      Json.loads file = Json.Ok (records_value records) /\
      (exists m, indexed_records = firstn m records) /\
      (Main.caught result = false -> indexed_records = records)
  | None =>
      indexed_records = [] /\ Main.caught result = true
  end.
Proof.
  intros Hsafe result records indexed_records.
  unfold indexed_records, result, Main.main.
  rewrite map_map. fold records.
  destruct writable; [|split; reflexivity].
  unfold RAGModel.enumerate.
  destruct (add_documents_prefix records 0 (RAGModel.init vec)
              eq_refl eq_refl)
    as (k & es & Hk & _ & Hst & Hfin & _).
  destruct (Main.add_documents encode (RAGModel.init vec)
              (combine (seq 0 (length records)) records))
    as [rag finished].
  cbn [fst snd] in *. subst rag.
  cbn [Main.json_file Main.rag_model Main.caught RAGModel.documents
       RAGModel.init app].
  assert (Hrecs : map snd (combine (seq 0 k) (firstn k records)) =
                  firstn k records).
  { rewrite <- (combine_seq_values (firstn k records) 0) at 2.
    now rewrite length_firstn, Nat.min_l. }
  rewrite Hrecs. split; [|split].
  - apply loads_dump. unfold records. apply Forall_map.
    apply Forall_forall. intros path Hin.
    apply extract_information_safe. now apply Hsafe.
  - now exists k.
  - intros H. apply negb_false_iff in H. rewrite (Hfin H).
    apply firstn_all.
Qed.
End MainFacts.

Lemma X22_witness :
  let result :=
    Main.main 47%N None (fun _ => None) (fun _ => Some (lit " Name: HP "))
              true raising_encode [lit "docs/a.pdf"; lit "docs/c.html"] in
  let records :=
    map (fun path =>
           extract_information
             (DocumentParser.parse_document 47%N None (fun _ => None)
                (fun _ => Some (lit " Name: HP ")) path))
        [lit "docs/a.pdf"; lit "docs/c.html"] in
  let indexed_records := map snd (RAGModel.documents (Main.rag_model result)) in
  match Main.json_file result with
  | Some file =>
      Json.loads file = Json.Ok (records_value records) /\
      (exists m, indexed_records = firstn m records) /\
      (Main.caught result = false -> indexed_records = records)
  | None =>
      indexed_records = [] /\ Main.caught result = true
  end.
Proof.
  apply (X22_main_file_and_index 47%N None (fun _ => None)
           (fun _ => Some (lit " Name: HP ")) str true raising_encode
           [lit "docs/a.pdf"; lit "docs/c.html"]).
  intros path [<-|[<-|[]]]; apply json_safeb_sound; reflexivity.
Defined.

(** Two runs that end in the [except] branch.  With the model raising
    at the second record, the file holds both records and the index the
    first one only; with a file that cannot be written, nothing is
    indexed. *)
Example main_model_raises :
  let result :=
    Main.main 47%N None (fun _ => None) (fun _ => Some (lit " Name: HP "))
              true raising_encode [lit "docs/a.pdf"; lit "docs/c.html"] in
  Main.caught result = true /\
  Main.json_file result =
    Some (save_to_json [[]; [(lit "Name", lit "HP"); (lit "Name: HP", [])]]) /\
  RAGModel.documents (Main.rag_model result) = [(0, [])] /\
  RAGModel.document_embeddings (Main.rag_model result) = [(0, [])].
Proof. repeat split. Qed.

Example main_file_not_writable :
  let result :=
    Main.main 47%N None (fun _ => None) (fun _ => Some (lit " Name: HP "))
              false raising_encode [lit "docs/a.pdf"; lit "docs/c.html"] in
  Main.caught result = true /\
  Main.json_file result = None /\
  RAGModel.documents (Main.rag_model result) = [] /\
  RAGModel.document_embeddings (Main.rag_model result) = [].
Proof. repeat split. Qed.

(** ** query with a large top_k *)

Section RetrievalAll.
Variables vec score : Type.
Variable encode : str -> vec.
Variable cosine_similarity : vec -> vec -> score.
Variable score_ltb : score -> score -> bool.

Local Abbreviation state := (RAGModel.state vec).
Local Abbreviation sorted_docs :=
  (RAGModel.sorted_docs encode cosine_similarity score_ltb).
Local Abbreviation query := (RAGModel.query encode cosine_similarity score_ltb).
Local Abbreviation reachable := (RAGModel.reachable encode).
Local Abbreviation documents := (@RAGModel.documents vec).
Local Abbreviation stored_at := (@RetrievalSpec.stored_at vec score).

(** The record under an index, the empty record when there is none *)
Local Abbreviation record_at st :=
  (fun i : nat => match dict_get Nat.eqb i (documents st) with
                  | Some r => r
                  | None => []
                  end).

Lemma stored_records (st : state) (recs : list Record)
  (l : list (nat * score)) :
  Forall2 (stored_at st) recs l -> recs = map (record_at st) (map fst l).
Proof.
  induction 1 as [|r x recs l Hx _ IH]; [reflexivity|].
  cbn [map]. unfold RetrievalSpec.stored_at in Hx. rewrite Hx.
  now rewrite <- IH.
Qed.

Lemma documents_records (d0 d : dict nat Record) :
  (forall x, In x d -> In x d0) ->
  NoDup (keys d0) ->
  map snd d =
  map (fun i : nat => match dict_get Nat.eqb i d0 with
                      | Some r => r
                      | None => []
                      end) (keys d).
Proof.
  intros Hsub Hnd. induction d as [|[i r] d IH]; [reflexivity|].
  cbn [map keys fst snd].
  rewrite (dict_get_NoDup Nat.eqb nat_eqb_eq i r d0 Hnd)
    by (apply Hsub; now left).
  f_equal. apply IH. intros x Hx. apply Hsub. now right.
Qed.

(** X23: with [top_k] at least the number of stored entries nothing is
    left out: the answer holds every stored record exactly once. *)
Theorem X23_large_top_k_returns_everything
  (st : state) (question : str) (top_k : Z) :
  reachable st ->
  (Z.of_nat (length (documents st)) <= top_k)%Z ->
  exists recs,
    query st question top_k = RAGModel.Ok recs /\
    Permutation recs (map snd (documents st)).
Proof.
  intros Hr Hk.
  destruct (query_ok vec score encode cosine_similarity score_ltb
              st question top_k Hr) as (recs & Hq & Hf).
  exists recs. split; [exact Hq|].
  destruct (reachable_indexed vec encode st Hr) as [n Hidx].
  pose proof (sorted_docs_length vec score encode cosine_similarity score_ltb
                st question n Hidx) as Hlen.
  destruct Hidx as [He Hd].
  pose proof (keys_length _ _ Hd) as Hn.
  unfold RAGModel.slice_to in Hf.
  assert (E : (top_k <? 0)%Z = false) by (apply Z.ltb_ge; lia).
  rewrite E, firstn_all2 in Hf by lia.
  rewrite (stored_records st recs _ Hf).
  assert (Hnd : NoDup (keys (documents st))) by (rewrite Hd; apply seq_NoDup).
  rewrite (documents_records (documents st) (documents st)
             (fun x H => H) Hnd).
  apply Permutation_map.
  unfold RAGModel.sorted_docs.
  rewrite (similarities_scored vec score encode cosine_similarity st question n
             (conj He Hd)).
  rewrite (Permutation_map fst (sorted_desc_perm score score_ltb _)).
  unfold RetrievalSpec.scored. rewrite map_map. cbn [fst].
  rewrite Hd, <- He. reflexivity.
Qed.
End RetrievalAll.

Lemma X23_witness :
  exists recs,
    Stub.query (Stub.add_documents Stub.init [Stub.dell; Stub.hp])
               (lit "Name: HP") 2 = RAGModel.Ok recs /\
    Permutation recs
      (map snd (RAGModel.documents
                  (Stub.add_documents Stub.init [Stub.dell; Stub.hp]))).
Proof.
  apply (X23_large_top_k_returns_everything str Z Stub.encode
           Stub.cosine_similarity Stub.score_ltb
           (Stub.add_documents Stub.init [Stub.dell; Stub.hp])
           (lit "Name: HP") 2%Z).
  - apply RAGModel.reach_add. apply RAGModel.reach_init.
  - cbn. lia.
Defined.
